(** * Verification of frameworks/native: frame targeter, composition
    display and input dispatcher.

    The file has two parts: the embedding of the code, then the theorems.

    - [FrameTargeter]: the read-only [FrameTarget] metrics of
      services/surfaceflinger/Scheduler/include/scheduler/FrameTargeter.h.
    - [CompositionDisplay]: [Display::disconnect] of
      services/surfaceflinger/CompositionEngine/src/Display.cpp.
    - [InputDispatcher]: the dispatch engine declared in
      services/inputflinger/dispatcher/InputDispatcher.h.  The header gives
      the state (the [m...] fields), the [DropReason] enumeration and the
      names of the operations; their bodies (InputDispatcher.cpp,
      FocusResolver.cpp, Connection.cpp) are modelled from the
      specification, and every such definition says so. *)

From stdpp Require Import gmap list sorting strings.
From Stdlib Require Import ZArith Lia.

Local Open Scope Z_scope.

(* ===================================================================== *)
(** * Part I: the embedding                                               *)
(* ===================================================================== *)

(* --------------------------------------------------------------------- *)
(** ** FrameTarget (scheduler/FrameTargeter.h)                            *)
(* --------------------------------------------------------------------- *)

Module FrameTargeter.

(** [TimePoint], [Duration] and [Period] count nanoseconds. *)
Definition TimePoint := Z.
Definition Duration := Z.
Definition Period := Z.

(** The protected fields of [class FrameTarget] that its inline accessors
    read.  [TracedOrdinal<bool>] is a [bool] that is also traced. *)
Record FrameTarget := {
  mVsyncId : Z;
  mFrameBeginTime : TimePoint;
  mExpectedPresentTime : TimePoint;
  mFramePending : bool;
  mFrameMissed : bool;
  mHwcFrameMissed : bool;
  mGpuFrameMissed : bool;
}.

(** A default-constructed target: every [TracedOrdinal<bool>] is
    initialised to [false]. *)
Definition initial : FrameTarget :=
  {| mVsyncId := 0; mFrameBeginTime := 0; mExpectedPresentTime := 0;
     mFramePending := false; mFrameMissed := false;
     mHwcFrameMissed := false; mGpuFrameMissed := false |}.

Definition vsyncId (t : FrameTarget) : Z := mVsyncId t.

Definition frameBeginTime (t : FrameTarget) : TimePoint := mFrameBeginTime t.

Definition expectedPresentTime (t : FrameTarget) : TimePoint :=
  mExpectedPresentTime t.

(** [return mExpectedPresentTime - mFrameBeginTime;] *)
Definition expectedFrameDuration (t : FrameTarget) : Duration :=
  mExpectedPresentTime t - mFrameBeginTime t.

(** [return mExpectedPresentTime - vsyncPeriod;] *)
Definition previousFrameVsyncTime (t : FrameTarget) (vsyncPeriod : Period)
  : TimePoint :=
  mExpectedPresentTime t - vsyncPeriod.

(** [bool isFramePending() const { return mFramePending; }] *)
Definition isFramePending (t : FrameTarget) : bool := mFramePending t.

(** [bool didMissFrame() const { return mFrameMissed; }] *)
Definition didMissFrame (t : FrameTarget) : bool := mFrameMissed t.

(** [bool didMissHwcFrame() const
      { return mHwcFrameMissed && !mGpuFrameMissed; }] *)
Definition didMissHwcFrame (t : FrameTarget) : bool :=
  mHwcFrameMissed t && negb (mGpuFrameMissed t).

(** A target with the flags of the third frame of the test
    [detectsMissedFrames]: the past present fence is pending and the frame
    before it ended with [CompositionCoverage::Gpu].  The times play no
    part in the accessors under study and are left at zero. *)
Definition gpuMissedFrame : FrameTarget :=
  {| mVsyncId := 557; mFrameBeginTime := 0; mExpectedPresentTime := 0;
     mFramePending := true; mFrameMissed := true;
     mHwcFrameMissed := false; mGpuFrameMissed := true |}.

(** The same missed frame when the earlier frame was composited by both
    the GPU and the hardware composer. *)
Definition mixedMissedFrame : FrameTarget :=
  {| mVsyncId := 557; mFrameBeginTime := 0; mExpectedPresentTime := 0;
     mFramePending := true; mFrameMissed := true;
     mHwcFrameMissed := true; mGpuFrameMissed := true |}.

End FrameTargeter.

(* --------------------------------------------------------------------- *)
(** ** Display::disconnect (CompositionEngine/src/Display.cpp)            *)
(* --------------------------------------------------------------------- *)

Module CompositionDisplay.

Section Disconnect.

(** [DisplayId], [HalDisplayId] and [HalDisplayId::tryCast] are declared in
    ui/DisplayId.h, which Display.cpp only uses: they are parameters. *)
Context {DisplayId HalDisplayId : Type}.
Variable tryCast : DisplayId -> option HalDisplayId.

(** The call [disconnect] makes on the hardware composer
    ([getCompositionEngine().getHwComposer()]).  The composer is an
    external collaborator: the model keeps the calls it receives. *)
Inductive HwcCall :=
| disconnectDisplay (id : HalDisplayId).

(** The members of [Display] that [disconnect] reads or writes, and the
    composer calls made so far, oldest first. *)
Record Display := {
  mId : DisplayId;
  mIsDisconnected : bool;
  hwComposer : list HwcCall;
}.

(** [[
    void Display::disconnect() {
        if (mIsDisconnected) {
            return;
        }

        mIsDisconnected = true;

        if (const auto id = HalDisplayId::tryCast(mId)) {
            getCompositionEngine().getHwComposer().disconnectDisplay( *id);
        }
    }
    ]] *)
Definition disconnect (d : Display) : Display :=
  if mIsDisconnected d then d
  else
    let d' := {| mId := mId d; mIsDisconnected := true;
                 hwComposer := hwComposer d |} in
    match tryCast (mId d') with
    | Some id =>
        {| mId := mId d'; mIsDisconnected := mIsDisconnected d';
           hwComposer := hwComposer d' ++ [disconnectDisplay id] |}
    | None => d'
    end.

(** How many [disconnectDisplay] calls the composer has received. *)
Definition disconnectCount (d : Display) : nat := length (hwComposer d).

End Disconnect.

(** The kinds of display id that Display.cpp tells apart with
    [PhysicalDisplayId::tryCast], [VirtualDisplayId::tryCast],
    [GpuVirtualDisplayId::tryCast] and [HalDisplayId::tryCast], to run the
    model on: an id backed by the composer is physical or HAL virtual. *)
Inductive SampleDisplayId :=
| Physical (value : Z)
| HalVirtual (value : Z)
| GpuVirtual (value : Z).

Definition sampleTryCast (id : SampleDisplayId) : option Z :=
  match id with
  | Physical v | HalVirtual v => Some v
  | GpuVirtual _ => None
  end.

End CompositionDisplay.

(* --------------------------------------------------------------------- *)
(** ** InputDispatcher (inputflinger/dispatcher/InputDispatcher.h)        *)
(* --------------------------------------------------------------------- *)

Module InputDispatcher.

(** [enum class DropReason], as the header declares it. *)
Inductive DropReason :=
| NOT_DROPPED
| POLICY
| APP_SWITCH
| DISABLED
| BLOCKED
| STALE
| NO_POINTER_CAPTURE.

#[global] Instance DropReason_eq_dec : EqDecision DropReason.
Proof. solve_decision. Defined.

(** Modelled from the spec: Entry.h is not among the sources.  Section 3
    lists the variants of the tagged union [EventEntry]. *)
Inductive EntryType :=
| CONFIGURATION_CHANGED
| DEVICE_RESET
| FOCUS
| POINTER_CAPTURE_CHANGED
| DRAG
| TOUCH_MODE_CHANGED
| KEY
| MOTION
| SENSOR.

#[global] Instance EntryType_eq_dec : EqDecision EntryType.
Proof. solve_decision. Defined.

(** Modelled from the spec: the motion actions section 4.1 names. *)
Inductive Action :=
| ACTION_DOWN
| ACTION_MOVE
| ACTION_UP
| ACTION_CANCEL.

#[global] Instance Action_eq_dec : EqDecision Action.
Proof. solve_decision. Defined.

(** Modelled from the spec: Entry.h is not among the sources.  The shared
    metadata of section 3 (sequence id, timestamp), the device and display
    of key, motion and sensor entries (an entry the dispatcher makes for
    itself, such as a focus entry, has no device), the motion action, and
    for a focus entry the window concerned and whether it gains focus.
    Connection tokens ([sp<IBinder>]) are natural numbers. *)
Record EventEntry := {
  sequenceId : nat;
  entryType : EntryType;
  eventTime : Z;
  deviceId : option Z;
  displayId : Z;
  action : Action;
  connectionToken : option nat;
  hasFocus : bool;
}.

Definition withSequenceId (n : nat) (e : EventEntry) : EventEntry :=
  {| sequenceId := n; entryType := entryType e; eventTime := eventTime e;
     deviceId := deviceId e; displayId := displayId e; action := action e;
     connectionToken := connectionToken e; hasFocus := hasFocus e |}.

(** Modelled from the spec: section 3, DispatchEntry, the delivery unit for
    one event and one target: the event, the per-connection sequence number
    and the delivery timestamp. *)
Record DispatchEntry := {
  eventEntry : EventEntry;
  seq : nat;
  deliveryTime : Z;
}.

(** Modelled from the spec: Connection.h is not among the sources.
    Section 3: entries not yet written to the channel, entries written and
    not yet acknowledged, and the per-connection sequence counter. *)
Record Connection := {
  outboundQueue : list DispatchEntry;
  waitQueue : list DispatchEntry;
  sequenceCounter : nat;
}.

Definition newConnection : Connection :=
  {| outboundQueue := []; waitQueue := []; sequenceCounter := 0 |}.

(** Modelled from the spec: section 4.6, a command is a deferred action;
    section 9 asks for a variant of actions.  These are the two policy
    notifications the model posts. *)
Inductive Command :=
| NotifyFocusChanged (oldToken newToken : option nat)
| NotifyInputChannelBroken (token : nat).

(** Modelled from the spec: the window-handle metadata that focus is
    computed from (section 3: token, focusable flag, visibility). *)
Record WindowInfo := {
  token : nat;
  focusable : bool;
  visible : bool;
}.

(** Modelled from the spec: FocusResolver.h is not among the sources.
    Section 3: the reason of a focus decision, read off the metadata. *)
Inductive Focusability :=
| OK
| NO_WINDOW
| NOT_FOCUSABLE
| NOT_VISIBLE.

(** Modelled from the spec: section 3, the value object that a focus
    recomputation produces: old and new token, display id, reason. *)
Record FocusChanges := {
  oldFocus : option nat;
  newFocus : option nat;
  changedDisplayId : Z;
  reason : Focusability;
}.

(** Modelled from the spec: section 3, the state of the focus resolver:
    the focused window token of each display, and the window that
    [setFocusedWindow] last asked to focus on each display. *)
Record FocusResolver := {
  mFocusedWindowTokenByDisplay : gmap Z nat;
  mFocusRequestByDisplay : gmap Z nat;
}.

(** What the dispatcher has done so far, oldest first.  The history is
    not a member of the class: it records the effects whose order the
    theorems are about.
    - [Arrived e]: [e] was placed in the inbound queue;
    - [Created e]: the dispatcher made [e] for itself, outside the queue
      (a key repeat or a cancellation);
    - [Enqueued tok s e]: the dispatch entry [s] for [e] was appended to the
      outbound queue of connection [tok] when [e] was dispatched;
    - [EnqueuedCancelation tok s e]: the same for a synthesized
      cancellation;
    - [Published tok s e]: the entry was written to the channel of [tok];
    - [Dropped e r]: [e] was dropped for reason [r];
    - [PolicyCall c]: command [c] was run. *)
Inductive Observation :=
| Arrived (e : EventEntry)
| Created (e : EventEntry)
| Enqueued (tok : nat) (s : nat) (e : EventEntry)
| EnqueuedCancelation (tok : nat) (s : nat) (e : EventEntry)
| Published (tok : nat) (s : nat) (e : EventEntry)
| Dropped (e : EventEntry) (r : DropReason)
| PolicyCall (c : Command).

(** The members of [InputDispatcher] that the model carries, under the
    names of the header, with the allocator of connection tokens and the
    history. *)
Record Dispatcher := {
  mPendingEvent : option EventEntry;
  mInboundQueue : list EventEntry;
  mCommandQueue : list Command;
  mLastDropReason : DropReason;
  mIdGenerator : nat;
  mConnectionsByToken : gmap nat Connection;
  mWindowHandlesByDisplay : gmap Z (list WindowInfo);
  mFocusResolver : FocusResolver;
  mDispatchEnabled : bool;
  mDispatchFrozen : bool;
  mStaleEventTimeout : Z;
  nextConnectionToken : nat;
  history : list Observation;
}.

Definition set_mPendingEvent (v : option EventEntry)
    (st : Dispatcher) : Dispatcher :=
  {| mPendingEvent := v; mInboundQueue := mInboundQueue st;
     mCommandQueue := mCommandQueue st; mLastDropReason := mLastDropReason st;
     mIdGenerator := mIdGenerator st;
     mConnectionsByToken := mConnectionsByToken st;
     mWindowHandlesByDisplay := mWindowHandlesByDisplay st;
     mFocusResolver := mFocusResolver st;
     mDispatchEnabled := mDispatchEnabled st;
     mDispatchFrozen := mDispatchFrozen st;
     mStaleEventTimeout := mStaleEventTimeout st;
     nextConnectionToken := nextConnectionToken st; history := history st |}.

Definition set_mInboundQueue (v : list EventEntry)
    (st : Dispatcher) : Dispatcher :=
  {| mPendingEvent := mPendingEvent st; mInboundQueue := v;
     mCommandQueue := mCommandQueue st; mLastDropReason := mLastDropReason st;
     mIdGenerator := mIdGenerator st;
     mConnectionsByToken := mConnectionsByToken st;
     mWindowHandlesByDisplay := mWindowHandlesByDisplay st;
     mFocusResolver := mFocusResolver st;
     mDispatchEnabled := mDispatchEnabled st;
     mDispatchFrozen := mDispatchFrozen st;
     mStaleEventTimeout := mStaleEventTimeout st;
     nextConnectionToken := nextConnectionToken st; history := history st |}.

Definition set_mCommandQueue (v : list Command)
    (st : Dispatcher) : Dispatcher :=
  {| mPendingEvent := mPendingEvent st; mInboundQueue := mInboundQueue st;
     mCommandQueue := v; mLastDropReason := mLastDropReason st;
     mIdGenerator := mIdGenerator st;
     mConnectionsByToken := mConnectionsByToken st;
     mWindowHandlesByDisplay := mWindowHandlesByDisplay st;
     mFocusResolver := mFocusResolver st;
     mDispatchEnabled := mDispatchEnabled st;
     mDispatchFrozen := mDispatchFrozen st;
     mStaleEventTimeout := mStaleEventTimeout st;
     nextConnectionToken := nextConnectionToken st; history := history st |}.

Definition set_mLastDropReason (v : DropReason)
    (st : Dispatcher) : Dispatcher :=
  {| mPendingEvent := mPendingEvent st; mInboundQueue := mInboundQueue st;
     mCommandQueue := mCommandQueue st; mLastDropReason := v;
     mIdGenerator := mIdGenerator st;
     mConnectionsByToken := mConnectionsByToken st;
     mWindowHandlesByDisplay := mWindowHandlesByDisplay st;
     mFocusResolver := mFocusResolver st;
     mDispatchEnabled := mDispatchEnabled st;
     mDispatchFrozen := mDispatchFrozen st;
     mStaleEventTimeout := mStaleEventTimeout st;
     nextConnectionToken := nextConnectionToken st; history := history st |}.

Definition set_mIdGenerator (v : nat) (st : Dispatcher) : Dispatcher :=
  {| mPendingEvent := mPendingEvent st; mInboundQueue := mInboundQueue st;
     mCommandQueue := mCommandQueue st; mLastDropReason := mLastDropReason st;
     mIdGenerator := v; mConnectionsByToken := mConnectionsByToken st;
     mWindowHandlesByDisplay := mWindowHandlesByDisplay st;
     mFocusResolver := mFocusResolver st;
     mDispatchEnabled := mDispatchEnabled st;
     mDispatchFrozen := mDispatchFrozen st;
     mStaleEventTimeout := mStaleEventTimeout st;
     nextConnectionToken := nextConnectionToken st; history := history st |}.

Definition set_mConnectionsByToken (v : gmap nat Connection)
    (st : Dispatcher) : Dispatcher :=
  {| mPendingEvent := mPendingEvent st; mInboundQueue := mInboundQueue st;
     mCommandQueue := mCommandQueue st; mLastDropReason := mLastDropReason st;
     mIdGenerator := mIdGenerator st; mConnectionsByToken := v;
     mWindowHandlesByDisplay := mWindowHandlesByDisplay st;
     mFocusResolver := mFocusResolver st;
     mDispatchEnabled := mDispatchEnabled st;
     mDispatchFrozen := mDispatchFrozen st;
     mStaleEventTimeout := mStaleEventTimeout st;
     nextConnectionToken := nextConnectionToken st; history := history st |}.

Definition set_mWindowHandlesByDisplay (v : gmap Z (list WindowInfo))
    (st : Dispatcher) : Dispatcher :=
  {| mPendingEvent := mPendingEvent st; mInboundQueue := mInboundQueue st;
     mCommandQueue := mCommandQueue st; mLastDropReason := mLastDropReason st;
     mIdGenerator := mIdGenerator st;
     mConnectionsByToken := mConnectionsByToken st;
     mWindowHandlesByDisplay := v; mFocusResolver := mFocusResolver st;
     mDispatchEnabled := mDispatchEnabled st;
     mDispatchFrozen := mDispatchFrozen st;
     mStaleEventTimeout := mStaleEventTimeout st;
     nextConnectionToken := nextConnectionToken st; history := history st |}.

Definition set_mFocusResolver (v : FocusResolver)
    (st : Dispatcher) : Dispatcher :=
  {| mPendingEvent := mPendingEvent st; mInboundQueue := mInboundQueue st;
     mCommandQueue := mCommandQueue st; mLastDropReason := mLastDropReason st;
     mIdGenerator := mIdGenerator st;
     mConnectionsByToken := mConnectionsByToken st;
     mWindowHandlesByDisplay := mWindowHandlesByDisplay st;
     mFocusResolver := v; mDispatchEnabled := mDispatchEnabled st;
     mDispatchFrozen := mDispatchFrozen st;
     mStaleEventTimeout := mStaleEventTimeout st;
     nextConnectionToken := nextConnectionToken st; history := history st |}.

Definition set_mDispatchEnabled (v : bool) (st : Dispatcher) : Dispatcher :=
  {| mPendingEvent := mPendingEvent st; mInboundQueue := mInboundQueue st;
     mCommandQueue := mCommandQueue st; mLastDropReason := mLastDropReason st;
     mIdGenerator := mIdGenerator st;
     mConnectionsByToken := mConnectionsByToken st;
     mWindowHandlesByDisplay := mWindowHandlesByDisplay st;
     mFocusResolver := mFocusResolver st; mDispatchEnabled := v;
     mDispatchFrozen := mDispatchFrozen st;
     mStaleEventTimeout := mStaleEventTimeout st;
     nextConnectionToken := nextConnectionToken st; history := history st |}.

Definition set_mDispatchFrozen (v : bool) (st : Dispatcher) : Dispatcher :=
  {| mPendingEvent := mPendingEvent st; mInboundQueue := mInboundQueue st;
     mCommandQueue := mCommandQueue st; mLastDropReason := mLastDropReason st;
     mIdGenerator := mIdGenerator st;
     mConnectionsByToken := mConnectionsByToken st;
     mWindowHandlesByDisplay := mWindowHandlesByDisplay st;
     mFocusResolver := mFocusResolver st;
     mDispatchEnabled := mDispatchEnabled st; mDispatchFrozen := v;
     mStaleEventTimeout := mStaleEventTimeout st;
     nextConnectionToken := nextConnectionToken st; history := history st |}.

Definition set_nextConnectionToken (v : nat) (st : Dispatcher) : Dispatcher :=
  {| mPendingEvent := mPendingEvent st; mInboundQueue := mInboundQueue st;
     mCommandQueue := mCommandQueue st; mLastDropReason := mLastDropReason st;
     mIdGenerator := mIdGenerator st;
     mConnectionsByToken := mConnectionsByToken st;
     mWindowHandlesByDisplay := mWindowHandlesByDisplay st;
     mFocusResolver := mFocusResolver st;
     mDispatchEnabled := mDispatchEnabled st;
     mDispatchFrozen := mDispatchFrozen st;
     mStaleEventTimeout := mStaleEventTimeout st; nextConnectionToken := v;
     history := history st |}.

Definition set_history (v : list Observation) (st : Dispatcher) : Dispatcher :=
  {| mPendingEvent := mPendingEvent st; mInboundQueue := mInboundQueue st;
     mCommandQueue := mCommandQueue st; mLastDropReason := mLastDropReason st;
     mIdGenerator := mIdGenerator st;
     mConnectionsByToken := mConnectionsByToken st;
     mWindowHandlesByDisplay := mWindowHandlesByDisplay st;
     mFocusResolver := mFocusResolver st;
     mDispatchEnabled := mDispatchEnabled st;
     mDispatchFrozen := mDispatchFrozen st;
     mStaleEventTimeout := mStaleEventTimeout st;
     nextConnectionToken := nextConnectionToken st; history := v |}.

(** *** Plumbing *)

Definition record (os : list Observation) (st : Dispatcher) : Dispatcher :=
  set_history (history st ++ os) st.

Definition insertAt {A} (n : nat) (x : A) (l : list A) : list A :=
  take n l ++ x :: drop n l.

Definition stamp (currentTime : Z) (d : DispatchEntry) : DispatchEntry :=
  {| eventEntry := eventEntry d; seq := seq d; deliveryTime := currentTime |}.

Definition asCancelation (e : EventEntry) : EventEntry :=
  {| sequenceId := sequenceId e; entryType := entryType e;
     eventTime := eventTime e; deviceId := deviceId e;
     displayId := displayId e; action := ACTION_CANCEL;
     connectionToken := connectionToken e; hasFocus := hasFocus e |}.

Definition asKeyRepeat (e : EventEntry) : EventEntry :=
  {| sequenceId := sequenceId e; entryType := KEY;
     eventTime := eventTime e; deviceId := deviceId e;
     displayId := displayId e; action := ACTION_DOWN;
     connectionToken := None; hasFocus := false |}.

Definition focusEntry (n : nat) (currentTime : Z) (display : Z)
    (windowToken : nat) (gains : bool) : EventEntry :=
  {| sequenceId := n; entryType := FOCUS; eventTime := currentTime;
     deviceId := None; displayId := display; action := ACTION_DOWN;
     connectionToken := Some windowToken; hasFocus := gains |}.

(** Modelled from the spec: the constructor is in InputDispatcher.cpp.
    Empty queues and tables, for a stale-event timeout (the header's second
    constructor takes it) and a dispatch mode (the specification does not
    fix the initial one). *)
Definition initialDispatcher (staleEventTimeout : Z) (enabled frozen : bool)
  : Dispatcher :=
  {| mPendingEvent := None; mInboundQueue := []; mCommandQueue := [];
     mLastDropReason := NOT_DROPPED; mIdGenerator := 0;
     mConnectionsByToken := ∅; mWindowHandlesByDisplay := ∅;
     mFocusResolver := {| mFocusedWindowTokenByDisplay := ∅;
                          mFocusRequestByDisplay := ∅ |};
     mDispatchEnabled := enabled; mDispatchFrozen := frozen;
     mStaleEventTimeout := staleEventTimeout;
     nextConnectionToken := 0; history := [] |}.

(** *** Command queue (section 4.6) *)

(** Modelled from the spec: section 4.6, a command is queued while the
    lock is held. *)
Definition postCommandLocked (c : Command) (st : Dispatcher) : Dispatcher :=
  set_mCommandQueue (mCommandQueue st ++ [c]) st.

(** Modelled from the spec: section 4.6, commands run after the per-entry
    work, in FIFO order, each calling into the policy. *)
Definition runCommandsLockedInterruptable (st : Dispatcher) : Dispatcher :=
  set_mCommandQueue [] (record (PolicyCall <$> mCommandQueue st) st).

(** *** Inbound queue (section 4.1) *)

(** Modelled from the spec: section 4.1, an event is stale when its
    [eventTime] predates now minus [mStaleEventTimeout]. *)
Definition isStaleEvent (currentTime : Z) (entry : EventEntry)
    (st : Dispatcher) : bool :=
  bool_decide (eventTime entry < currentTime - mStaleEventTimeout st).

(** Modelled from the spec: sections 3 and 4.1, the entry gets the next
    sequence id of the generator and goes to the back of the inbound
    queue. *)
Definition enqueueInboundEventLocked (args : EventEntry) (st : Dispatcher)
  : Dispatcher :=
  let e := withSequenceId (mIdGenerator st) args in
  record [Arrived e]
    (set_mInboundQueue (mInboundQueue st ++ [e])
       (set_mIdGenerator (S (mIdGenerator st)) st)).

(** Modelled from the spec: the header says only that this enqueues a
    focus event.  Where in the inbound queue it goes is not specified: the
    caller of the model chooses the position [slot]. *)
Definition enqueueFocusEventLocked (slot : nat) (currentTime : Z)
    (display : Z) (windowToken : nat) (gains : bool) (st : Dispatcher)
  : Dispatcher :=
  let e := focusEntry (mIdGenerator st) currentTime display windowToken gains in
  record [Arrived e]
    (set_mInboundQueue (insertAt slot e (mInboundQueue st))
       (set_mIdGenerator (S (mIdGenerator st)) st)).

(** Modelled from the spec: section 4.1, under queue pressure an outdated
    MOVE motion entry may be pruned, never another entry.  [i] is the
    position of the entry to prune. *)
Definition pruneInboundQueueLocked (i : nat) (st : Dispatcher) : Dispatcher :=
  match mInboundQueue st !! i with
  | Some e =>
      if decide (entryType e = MOTION ∧ action e = ACTION_MOVE)
      then set_mInboundQueue (delete i (mInboundQueue st)) st
      else st
  | None => st
  end.

(** *** Focus resolution (section 3, FocusResolver) *)

(** Modelled from the spec: section 3, whether a token can be focused is
    read off the window-handle metadata: token validity (a window with the
    token is listed), visibility, focusable flag. *)
Definition getFocusability (tok : nat) (windows : list WindowInfo)
  : Focusability :=
  match list_find (λ w, token w = tok) windows with
  | None => NO_WINDOW
  | Some (_, w) =>
      if negb (visible w) then NOT_VISIBLE
      else if negb (focusable w) then NOT_FOCUSABLE
      else OK
  end.

(** Modelled from the spec: section 3, the window that should have focus:
    the requested one when it can be focused, none otherwise. *)
Definition resolveFocus (request : option nat) (windows : list WindowInfo)
  : option nat * Focusability :=
  match request with
  | None => (None, NO_WINDOW)
  | Some tok =>
      match getFocusability tok windows with
      | OK => (Some tok, OK)
      | r => (None, r)
      end
  end.

(** Modelled from the spec: section 3, a [FocusChanges] is produced when
    the recomputed focus differs from the current one. *)
Definition updateFocusedWindow (display : Z) (new : option nat)
    (r : Focusability) (fr : FocusResolver)
  : FocusResolver * option FocusChanges :=
  let old := mFocusedWindowTokenByDisplay fr !! display in
  if decide (new = old) then (fr, None)
  else
    ({| mFocusedWindowTokenByDisplay :=
          match new with
          | Some t => <[display := t]> (mFocusedWindowTokenByDisplay fr)
          | None => delete display (mFocusedWindowTokenByDisplay fr)
          end;
        mFocusRequestByDisplay := mFocusRequestByDisplay fr |},
     Some {| oldFocus := old; newFocus := new;
             changedDisplayId := display; reason := r |}).

(** Modelled from the spec: [FocusResolver::setInputWindows], section 3:
    focus is recomputed from the new window handles of a display. *)
Definition resolverSetInputWindows (display : Z) (windows : list WindowInfo)
    (fr : FocusResolver) : FocusResolver * option FocusChanges :=
  let '(new, r) := resolveFocus (mFocusRequestByDisplay fr !! display) windows in
  updateFocusedWindow display new r fr.

(** Modelled from the spec: [FocusResolver::setFocusedWindow]: the request
    is remembered and focus recomputed. *)
Definition resolverSetFocusedWindow (display : Z) (tok : nat)
    (windows : list WindowInfo) (fr : FocusResolver)
  : FocusResolver * option FocusChanges :=
  resolverSetInputWindows display windows
    {| mFocusedWindowTokenByDisplay := mFocusedWindowTokenByDisplay fr;
       mFocusRequestByDisplay := <[display := tok]> (mFocusRequestByDisplay fr) |}.

(** Modelled from the spec: a focus change is notified to the policy
    through a command (sections 4.6 and 6). *)
Definition sendFocusChangedCommandLocked (oldToken newToken : option nat)
    (st : Dispatcher) : Dispatcher :=
  postCommandLocked (NotifyFocusChanged oldToken newToken) st.

(** Modelled from the spec: sections 1 and 3, a focus change synthesizes
    focus events for the window that loses focus and the one that gains
    it, and notifies the policy. *)
Definition onFocusChangedLocked (slot : nat) (currentTime : Z)
    (changes : FocusChanges) (st : Dispatcher) : Dispatcher :=
  let d := changedDisplayId changes in
  let st1 := match oldFocus changes with
             | Some t => enqueueFocusEventLocked slot currentTime d t false st
             | None => st
             end in
  let st2 := match newFocus changes with
             | Some t => enqueueFocusEventLocked (S slot) currentTime d t true st1
             | None => st1
             end in
  sendFocusChangedCommandLocked (oldFocus changes) (newFocus changes) st2.

(** Modelled from the spec: section 6, the window handles of one display
    are replaced and focus recomputed. *)
Definition setInputWindowsLocked (slot : nat) (currentTime : Z)
    (windows : list WindowInfo) (display : Z) (st : Dispatcher)
  : Dispatcher :=
  let st1 := set_mWindowHandlesByDisplay
               (<[display := windows]> (mWindowHandlesByDisplay st)) st in
  match resolverSetInputWindows display windows (mFocusResolver st1) with
  | (fr, Some changes) =>
      onFocusChangedLocked slot currentTime changes (set_mFocusResolver fr st1)
  | (_, None) => st1
  end.

(** The displays of a list are updated in turn, first one first. *)
Definition setAll (slot : nat) (currentTime : Z)
    (l : list (Z * list WindowInfo)) (st : Dispatcher) : Dispatcher :=
  foldl (λ s dw, setInputWindowsLocked slot currentTime dw.2 dw.1 s) st l.

(** Modelled from the spec: [setInputWindows(perDisplayHandles)] of
    section 6: every display of the map is updated in turn. *)
Definition setInputWindows (slot : nat) (currentTime : Z)
    (handlesPerDisplay : gmap Z (list WindowInfo)) (st : Dispatcher)
  : Dispatcher :=
  setAll slot currentTime (map_to_list handlesPerDisplay) st.

(** A display is settled for a list of windows when these are its window
    handles and its focus is the one they resolve to. *)
Definition settled (display : Z) (windows : list WindowInfo)
    (st : Dispatcher) : Prop :=
  mWindowHandlesByDisplay st !! display = Some windows
  ∧ (resolveFocus
       (mFocusRequestByDisplay (mFocusResolver st) !! display) windows).1
    = mFocusedWindowTokenByDisplay (mFocusResolver st) !! display.

(** Modelled from the spec: [setFocusedWindow] of section 6. *)
Definition setFocusedWindow (slot : nat) (currentTime : Z) (display : Z)
    (tok : nat) (st : Dispatcher) : Dispatcher :=
  let windows := default [] (mWindowHandlesByDisplay st !! display) in
  match resolverSetFocusedWindow display tok windows (mFocusResolver st) with
  | (fr, Some changes) =>
      onFocusChangedLocked slot currentTime changes (set_mFocusResolver fr st)
  | (fr, None) => set_mFocusResolver fr st
  end.

(** The policy commands posted so far, run or still queued, oldest
    first. *)
Definition postedCommands (st : Dispatcher) : list Command :=
  omap (λ o, match o with PolicyCall c => Some c | _ => None end) (history st)
  ++ mCommandQueue st.

Definition isFocusNotification (c : Command) : bool :=
  match c with
  | NotifyFocusChanged _ _ => true
  | _ => false
  end.

(** The focus-change notifications the dispatcher has produced. *)
Definition focusNotifications (st : Dispatcher) : list Command :=
  filter (λ c, isFocusNotification c = true) (postedCommands st).

(** *** Dispatch cycle of a connection (section 4.4) *)

(** Modelled from the spec: sections 3 and 6, registration makes a
    connection under a token of its own. *)
Definition createInputChannel (st : Dispatcher) : Dispatcher :=
  let tok := nextConnectionToken st in
  set_mConnectionsByToken (<[tok := newConnection]> (mConnectionsByToken st))
    (set_nextConnectionToken (S tok) st).

(** Modelled from the spec: section 3, destroying a connection releases
    its entries; a broken channel is notified to the policy (section 6). *)
Definition removeInputChannelLocked (tok : nat) (notify : bool)
    (st : Dispatcher) : Dispatcher :=
  match mConnectionsByToken st !! tok with
  | None => st
  | Some _ =>
      let st1 := set_mConnectionsByToken
                   (delete tok (mConnectionsByToken st)) st in
      if notify then postCommandLocked (NotifyInputChannelBroken tok) st1
      else st1
  end.

(** Modelled from the spec: section 4.4, starting a cycle writes entries
    of the outbound queue to the channel, oldest first, and moves them to
    the wait queue.  The channel is given: [channel tok] is [None] when it
    is broken (the connection is torn down), and otherwise the number of
    entries it accepts before it is full (the rest is retried later). *)
Definition startDispatchCycleLocked (currentTime : Z)
    (channel : nat → option nat) (tok : nat) (st : Dispatcher) : Dispatcher :=
  match mConnectionsByToken st !! tok with
  | None => st
  | Some c =>
      match channel tok with
      | None => removeInputChannelLocked tok true st
      | Some n =>
          let sending := take n (outboundQueue c) in
          let c' := {| outboundQueue := drop n (outboundQueue c);
                       waitQueue := waitQueue c ++ (stamp currentTime <$> sending);
                       sequenceCounter := sequenceCounter c |} in
          record ((λ d, Published tok (seq d) (eventEntry d)) <$> sending)
            (set_mConnectionsByToken
               (<[tok := c']> (mConnectionsByToken st)) st)
      end
  end.

(** Modelled from the spec: section 4.4, a dispatch entry is built for the
    event and the target and appended to the outbound queue of the
    connection.  [cancelation] tells a synthesized cancellation from a
    dispatched event in the history. *)
Definition enqueueDispatchEntryLocked (tok : nat) (e : EventEntry)
    (cancelation : bool) (st : Dispatcher) : Dispatcher :=
  match mConnectionsByToken st !! tok with
  | None => st
  | Some c =>
      let d := {| eventEntry := e; seq := sequenceCounter c; deliveryTime := 0 |} in
      let c' := {| outboundQueue := outboundQueue c ++ [d];
                   waitQueue := waitQueue c;
                   sequenceCounter := S (sequenceCounter c) |} in
      record [if cancelation then EnqueuedCancelation tok (seq d) e
              else Enqueued tok (seq d) e]
        (set_mConnectionsByToken (<[tok := c']> (mConnectionsByToken st)) st)
  end.

(** Modelled from the spec: section 4.4, the cycle is started at once if
    the connection was idle (both of its queues were empty). *)
Definition enqueueDispatchEntriesLocked (currentTime : Z)
    (channel : nat → option nat) (tok : nat) (e : EventEntry)
    (st : Dispatcher) : Dispatcher :=
  match mConnectionsByToken st !! tok with
  | None => st
  | Some c =>
      let st1 := enqueueDispatchEntryLocked tok e false st in
      match outboundQueue c, waitQueue c with
      | [], [] => startDispatchCycleLocked currentTime channel tok st1
      | _, _ => st1
      end
  end.

(** Modelled from the spec: section 4.4, for each resolved target. *)
Definition dispatchEventLocked (currentTime : Z) (channel : nat → option nat)
    (e : EventEntry) (targets : list nat) (st : Dispatcher) : Dispatcher :=
  foldl (λ s tok, enqueueDispatchEntriesLocked currentTime channel tok e s)
    st targets.

(** Modelled from the spec: section 4.4, an acknowledgement is matched to
    the waiting entry by its sequence number; the entry leaves the wait
    queue and, if the outbound queue is not empty, the next cycle starts. *)
Definition finishDispatchCycleLocked (currentTime : Z)
    (channel : nat → option nat) (tok : nat) (s : nat) (st : Dispatcher)
  : Dispatcher :=
  match mConnectionsByToken st !! tok with
  | None => st
  | Some c =>
      if existsb (λ d, Nat.eqb (seq d) s) (waitQueue c) then
        let c' := {| outboundQueue := outboundQueue c;
                     waitQueue := filter (λ d, seq d ≠ s) (waitQueue c);
                     sequenceCounter := sequenceCounter c |} in
        let st1 := set_mConnectionsByToken
                     (<[tok := c']> (mConnectionsByToken st)) st in
        match outboundQueue c with
        | [] => st1
        | _ :: _ => startDispatchCycleLocked currentTime channel tok st1
        end
      else st
  end.

(** Modelled from the spec: section 4.7, a CANCEL-kind entry is made for
    the connection and dispatched at once, with no target resolution and
    without passing through the inbound queue.  [args] describes the
    gesture to cancel. *)
Definition synthesizeCancelationEventsForConnectionLocked (currentTime : Z)
    (channel : nat → option nat) (tok : nat) (args : EventEntry)
    (st : Dispatcher) : Dispatcher :=
  match mConnectionsByToken st !! tok with
  | None => st
  | Some _ =>
      let e := asCancelation (withSequenceId (mIdGenerator st) args) in
      let st1 := record [Created e] (set_mIdGenerator (S (mIdGenerator st)) st) in
      startDispatchCycleLocked currentTime channel tok
        (enqueueDispatchEntryLocked tok e true st1)
  end.

(** *** Dispatch loop (section 4.2) *)

(** What target resolution (section 4.3) concludes for the pending event:
    it must wait (for instance for a focused window), it has no target, or
    it goes to the listed connections.  Hit testing and touch state are
    not part of the model: the result of resolution is given to it. *)
Inductive Resolution :=
| Pending
| Failed
| Resolved (targets : list nat).

(** What one iteration of the loop is given from outside the model: the
    drop reason found by the checks other than staleness (policy, app
    switch, blocked, pointer capture; [NOT_DROPPED] when none applies), the
    result of target resolution, the key to repeat if the repeat timer has
    elapsed, and the state of the channels. *)
Record DispatchOracle := {
  verdict : DropReason;
  resolution : Resolution;
  keyRepeat : option EventEntry;
  channel : nat → option nat;
}.

(** Modelled from the spec: the header, "cleans up input state when
    dropping an inbound event"; the drop is recorded. *)
Definition dropInboundEventLocked (entry : EventEntry) (dropReason : DropReason)
    (st : Dispatcher) : Dispatcher :=
  record [Dropped entry dropReason] st.

(** Modelled from the spec: section 4.1, the entry that was being
    processed is released. *)
Definition releasePendingEventLocked (st : Dispatcher) : Dispatcher :=
  set_mPendingEvent None st.

(** Modelled from the spec: section 4.2, phase 2: a key-repeat entry is
    synthesized when no real event is pending. *)
Definition synthesizeKeyRepeatLocked (args : EventEntry) (st : Dispatcher)
  : Dispatcher :=
  let e := asKeyRepeat (withSequenceId (mIdGenerator st) args) in
  record [Created e]
    (set_mPendingEvent (Some e) (set_mIdGenerator (S (mIdGenerator st)) st)).

(** Modelled from the spec: section 4.2, phase 2. *)
Definition fetchPendingEventLocked (oracle : DispatchOracle) (st : Dispatcher)
  : Dispatcher :=
  match mPendingEvent st with
  | Some _ => st
  | None =>
      match mInboundQueue st with
      | e :: rest => set_mPendingEvent (Some e) (set_mInboundQueue rest st)
      | [] =>
          match keyRepeat oracle with
          | Some args => synthesizeKeyRepeatLocked args st
          | None => st
          end
      end
  end.

(** Modelled from the spec: section 4.1, the drop reason of the pending
    event: the one the other checks found, else [STALE] for a stale
    event. *)
Definition dropReasonFor (currentTime : Z) (oracle : DispatchOracle)
    (e : EventEntry) (st : Dispatcher) : DropReason :=
  if decide (verdict oracle = NOT_DROPPED)
  then (if isStaleEvent currentTime e st then STALE else NOT_DROPPED)
  else verdict oracle.

(** Modelled from the spec: section 4.2, phases 1 to 3.  Nothing is
    processed while dispatch is disabled or frozen.  Otherwise the head of
    the inbound queue becomes the pending event; it is dropped, or kept
    pending, or released without a target, or dispatched to its targets and
    released. *)
Definition dispatchOnceInnerLocked (currentTime : Z) (oracle : DispatchOracle)
    (st : Dispatcher) : Dispatcher :=
  if negb (mDispatchEnabled st) || mDispatchFrozen st then st
  else
    let st1 := fetchPendingEventLocked oracle st in
    match mPendingEvent st1 with
    | None => st1
    | Some e =>
        let dropReason := dropReasonFor currentTime oracle e st1 in
        if decide (dropReason = NOT_DROPPED) then
          match resolution oracle with
          | Pending => st1
          | Failed =>
              set_mLastDropReason NOT_DROPPED (releasePendingEventLocked st1)
          | Resolved targets =>
              set_mLastDropReason NOT_DROPPED
                (releasePendingEventLocked
                   (dispatchEventLocked currentTime (channel oracle) e targets st1))
          end
        else
          set_mLastDropReason dropReason
            (releasePendingEventLocked
               (dropInboundEventLocked e dropReason st1))
    end.

(** Modelled from the spec: section 4.2, phase 4: the commands the handler
    queued run after it. *)
Definition dispatchOnce (currentTime : Z) (oracle : DispatchOracle)
    (st : Dispatcher) : Dispatcher :=
  runCommandsLockedInterruptable (dispatchOnceInnerLocked currentTime oracle st).

(** Modelled from the spec: [setInputDispatchMode(enabled, frozen)]. *)
Definition setInputDispatchMode (enabled frozen : bool) (st : Dispatcher)
  : Dispatcher :=
  set_mDispatchFrozen frozen (set_mDispatchEnabled enabled st).

(** *** The dispatcher as a transition system *)

(** The calls of sections 4 and 6 that the model covers, with what each is
    given from outside. *)
Inductive Call :=
| NotifyEvent (args : EventEntry)
| PruneInboundQueue (i : nat)
| DispatchOnce (currentTime : Z) (oracle : DispatchOracle)
| FinishDispatchCycle (currentTime : Z) (channel : nat → option nat)
    (tok : nat) (s : nat)
| SynthesizeCancelation (currentTime : Z) (channel : nat → option nat)
    (tok : nat) (args : EventEntry)
| CreateInputChannel
| RemoveInputChannel (tok : nat)
| SetInputWindows (slot : nat) (currentTime : Z)
    (handlesPerDisplay : gmap Z (list WindowInfo))
| SetFocusedWindow (slot : nat) (currentTime : Z) (display : Z) (tok : nat)
| SetInputDispatchMode (enabled frozen : bool).

Definition step (c : Call) (st : Dispatcher) : Dispatcher :=
  match c with
  | NotifyEvent args => enqueueInboundEventLocked args st
  | PruneInboundQueue i => pruneInboundQueueLocked i st
  | DispatchOnce currentTime oracle => dispatchOnce currentTime oracle st
  | FinishDispatchCycle currentTime channel tok s =>
      finishDispatchCycleLocked currentTime channel tok s st
  | SynthesizeCancelation currentTime channel tok args =>
      synthesizeCancelationEventsForConnectionLocked currentTime channel tok
        args st
  | CreateInputChannel => createInputChannel st
  | RemoveInputChannel tok => removeInputChannelLocked tok false st
  | SetInputWindows slot currentTime handlesPerDisplay =>
      setInputWindows slot currentTime handlesPerDisplay st
  | SetFocusedWindow slot currentTime display tok =>
      setFocusedWindow slot currentTime display tok st
  | SetInputDispatchMode enabled frozen =>
      setInputDispatchMode enabled frozen st
  end.

(** The state after a sequence of calls, first call first. *)
Definition run (calls : list Call) (st : Dispatcher) : Dispatcher :=
  foldl (λ s c, step c s) st calls.

(** The states the dispatcher can be in. *)
Inductive reachable : Dispatcher → Prop :=
| reachable_initial staleEventTimeout enabled frozen :
    reachable (initialDispatcher staleEventTimeout enabled frozen)
| reachable_step c st :
    reachable st → reachable (step c st).

(** *** Reading the history *)

(** The sequence id an observation allocates, if it allocates one. *)
Definition allocId (o : Observation) : option nat :=
  match o with
  | Arrived e | Created e => Some (sequenceId e)
  | _ => None
  end.

(** The sequence id of a device event that an observation shows being
    dispatched to a connection. *)
Definition dispatchedId (o : Observation) : option nat :=
  match o with
  | Enqueued _ _ e =>
      match deviceId e with
      | Some _ => Some (sequenceId e)
      | None => None
      end
  | _ => None
  end.

(** The sequence ids of the entries of a queue that come from a device,
    in queue order. *)
Definition deviceIds (q : list EventEntry) : list nat :=
  sequenceId <$> filter (λ e, is_Some (deviceId e)) q.

(** The order invariant of the inbound side, over the sequence ids
    allocated so far [A], the ids of the device events dispatched so far
    [D], the next id [g], the pending event [p] and the inbound queue [q]:
    ids are allocated in increasing order; the device events still to be
    dispatched (the pending one, then the queue) are in increasing order of
    id; device events were dispatched in increasing order of id, and all
    of them before those still to be dispatched.  While the pending event
    is being dispatched ([strict = false]) it may itself be among the
    dispatched ones. *)
Record QueueOrder (strict : bool) (A D : list nat) (g : nat)
    (p : option EventEntry) (q : list EventEntry) : Prop := {
  qo_alloc_sorted : StronglySorted Nat.lt A;
  qo_alloc_bound : Forall (λ n, (n < g)%nat) A;
  qo_queue_sorted : StronglySorted Nat.lt (deviceIds (option_list p ++ q));
  qo_queue_bound : Forall (λ n, (n < g)%nat) (deviceIds (option_list p ++ q));
  qo_disp_sorted : StronglySorted Nat.le D;
  qo_disp_bound : Forall (λ n, (n < g)%nat) D;
  qo_disp_queue : ∀ x y, x ∈ D → y ∈ deviceIds q → (x < y)%nat;
  qo_disp_pending : ∀ x e, x ∈ D → p = Some e → is_Some (deviceId e) →
      if strict then (x < sequenceId e)%nat else (x ≤ sequenceId e)%nat;
}.

(** A dispatch entry of a connection is justified by the history when the
    history shows it being enqueued for that connection. *)
Definition justified (h : list Observation) (tok : nat) (d : DispatchEntry)
  : Prop :=
  Enqueued tok (seq d) (eventEntry d) ∈ h
  ∨ EnqueuedCancelation tok (seq d) (eventEntry d) ∈ h.

(** The invariant of the outbound side, over the history [h] and the
    connections [m]: a cancellation that was enqueued had been created by
    the dispatcher; whatever was written to a channel had been enqueued for
    that connection before; whatever waits in an outbound queue has been
    enqueued. *)
Record ChannelOrder (h : list Observation) (m : gmap nat Connection)
  : Prop := {
  co_cancel : ∀ tok s e, EnqueuedCancelation tok s e ∈ h → Created e ∈ h;
  co_published : ∀ j tok s e, h !! j = Some (Published tok s e) →
      ∃ k, (k < j)%nat ∧
           (h !! k = Some (Enqueued tok s e)
            ∨ h !! k = Some (EnqueuedCancelation tok s e));
  co_outbound : ∀ tok c, m !! tok = Some c →
      Forall (justified h tok) (outboundQueue c);
}.

(** The invariant of the dispatcher between two calls. *)
Definition invariant (strict : bool) (st : Dispatcher) : Prop :=
  QueueOrder strict (omap allocId (history st)) (omap dispatchedId (history st))
    (mIdGenerator st) (mPendingEvent st) (mInboundQueue st)
  ∧ ChannelOrder (history st) (mConnectionsByToken st).

(** Observations that neither write to a channel nor enqueue a
    cancellation. *)
Definition quiet (o : Observation) : Prop :=
  match o with
  | Published _ _ _ | EnqueuedCancelation _ _ _ => False
  | _ => True
  end.

(** Observations on which neither side of the invariant depends. *)
Definition silent (o : Observation) : Prop :=
  match o with
  | Dropped _ _ | PolicyCall _ => True
  | _ => False
  end.

(** The per-connection sequence number under which an observation shows
    an entry being enqueued for connection [tok]. *)
Definition enqueuedSeq (tok : nat) (o : Observation) : option nat :=
  match o with
  | Enqueued t s _ | EnqueuedCancelation t s _ =>
      if decide (t = tok) then Some s else None
  | _ => None
  end.

(** The per-connection sequence number under which an observation shows
    an entry being written to the channel of [tok]. *)
Definition publishedSeq (tok : nat) (o : Observation) : option nat :=
  match o with
  | Published t s _ => if decide (t = tok) then Some s else None
  | _ => None
  end.

(** Observations that concern no connection. *)
Definition unsequenced (o : Observation) : Prop :=
  match o with
  | Enqueued _ _ _ | EnqueuedCancelation _ _ _ | Published _ _ _ => False
  | _ => True
  end.

(** The invariant of the sequence numbers, over the history [h], the
    connections [m] and the next connection token [next]: for each
    connection, entries are enqueued and written under increasing sequence
    numbers, all below its counter; its outbound queue is in increasing
    order of sequence number, and holds only numbers above those already
    written; a token that has not been given out yet has no connection and
    nothing in the history. *)
Record SeqOrder (h : list Observation) (m : gmap nat Connection)
    (next : nat) : Prop := {
  so_enq_sorted : ∀ tok, StronglySorted Nat.lt (omap (enqueuedSeq tok) h);
  so_pub_sorted : ∀ tok, StronglySorted Nat.lt (omap (publishedSeq tok) h);
  so_enq_bound : ∀ tok c, m !! tok = Some c →
      Forall (λ s, (s < sequenceCounter c)%nat) (omap (enqueuedSeq tok) h);
  so_pub_bound : ∀ tok c, m !! tok = Some c →
      Forall (λ s, (s < sequenceCounter c)%nat) (omap (publishedSeq tok) h);
  so_out_sorted : ∀ tok c, m !! tok = Some c →
      StronglySorted Nat.lt (seq <$> outboundQueue c);
  so_out_bound : ∀ tok c, m !! tok = Some c →
      Forall (λ s, (s < sequenceCounter c)%nat) (seq <$> outboundQueue c);
  so_pub_out : ∀ tok c x y, m !! tok = Some c →
      x ∈ omap (publishedSeq tok) h → y ∈ seq <$> outboundQueue c →
      (x < y)%nat;
  so_fresh : ∀ tok, (next ≤ tok)%nat →
      m !! tok = None
      ∧ omap (enqueuedSeq tok) h = [] ∧ omap (publishedSeq tok) h = [];
}.

(** The sequence numbers of the dispatcher are in order. *)
Definition sequenced (st : Dispatcher) : Prop :=
  SeqOrder (history st) (mConnectionsByToken st) (nextConnectionToken st).

(** *** Sample runs *)

(** A key event of device [dev] with event time [t]; the dispatcher
    assigns the sequence id. *)
Definition keyArgs (t : Z) (dev : Z) : EventEntry :=
  {| sequenceId := 0; entryType := KEY; eventTime := t; deviceId := Some dev;
     displayId := 0; action := ACTION_DOWN; connectionToken := None;
     hasFocus := false |}.

(** An iteration in which no check drops the event, target resolution
    finds [targets], and every channel accepts one entry. *)
Definition toTargets (targets : list nat) : DispatchOracle :=
  {| verdict := NOT_DROPPED; resolution := Resolved targets;
     keyRepeat := None; channel := λ _, Some 1%nat |}.

(** Two keys of one device are notified, dispatched to the only
    connection, and the first is acknowledged. *)
Definition sampleCalls : list Call :=
  [SetInputDispatchMode true false; CreateInputChannel;
   NotifyEvent (keyArgs 5 1); NotifyEvent (keyArgs 6 1);
   DispatchOnce 10 (toTargets [0%nat]); DispatchOnce 11 (toTargets [0%nat]);
   FinishDispatchCycle 12 (λ _, Some 1%nat) 0 0].

Definition sampleRun : Dispatcher :=
  run sampleCalls (initialDispatcher 1000 false false).

(** The channel of connection [busy] is full, the others accept one
    entry. *)
Definition fullAt (busy : nat) : nat → option nat :=
  λ tok, if decide (tok = busy) then Some 0%nat else Some 1%nat.

Definition toTargetsVia (ch : nat → option nat) (targets : list nat)
  : DispatchOracle :=
  {| verdict := NOT_DROPPED; resolution := Resolved targets;
     keyRepeat := None; channel := ch |}.

(** Two keys of one device go to two connections; the channel of the
    first connection is full until a cancellation restarts its cycle. *)
Definition twoConnectionCalls : list Call :=
  [SetInputDispatchMode true false; CreateInputChannel; CreateInputChannel;
   NotifyEvent (keyArgs 5 1); NotifyEvent (keyArgs 6 1);
   DispatchOnce 10 (toTargetsVia (fullAt 0) [0%nat]);
   DispatchOnce 11 (toTargetsVia (fullAt 0) [1%nat]);
   SynthesizeCancelation 12 (λ _, Some 2%nat) 0 (keyArgs 12 1)].

Definition twoConnectionRun : Dispatcher :=
  run twoConnectionCalls (initialDispatcher 1000 false false).

(** A focusable, visible window with token 7, and a dispatcher in which
    that window has been asked to take focus on display 0. *)
Definition sampleWindow : WindowInfo :=
  {| token := 7; focusable := true; visible := true |}.

Definition sampleFocusRequest : Dispatcher :=
  step (SetFocusedWindow 0 1 0 7) (initialDispatcher 1000 true false).

End InputDispatcher.

(* ===================================================================== *)
(** * Part II: the theorems                                               *)
(* ===================================================================== *)

(* --------------------------------------------------------------------- *)
(** ** FrameTarget                                                        *)
(* --------------------------------------------------------------------- *)

Module FrameTargeterTheorems.
Import FrameTargeter.

(** The expectations of the test [detectsMissedFrames] on the flags. *)
Example initial_did_not_miss :
  isFramePending initial = false ∧ didMissFrame initial = false
  ∧ didMissHwcFrame initial = false.
Proof. repeat split. Qed.

Example gpuMissedFrame_expectations :
  isFramePending gpuMissedFrame = true ∧ didMissFrame gpuMissedFrame = true
  ∧ didMissHwcFrame gpuMissedFrame = false.
Proof. repeat split. Qed.

Lemma didMissHwcFrame_true (t : FrameTarget) :
  didMissHwcFrame t = true ↔
  mHwcFrameMissed t = true ∧ mGpuFrameMissed t = false.
Proof.
  unfold didMissHwcFrame.
  rewrite andb_true_iff, negb_true_iff. reflexivity.
Qed.

Lemma didMissHwcFrame_gpu (t : FrameTarget) :
  mGpuFrameMissed t = true → didMissHwcFrame t = false.
Proof.
  intros Hgpu. unfold didMissHwcFrame. rewrite Hgpu.
  apply andb_false_r.
Qed.

(** C10.  For every [FrameTarget] state, [didMissHwcFrame()] returns true
    exactly when the HWC-frame-missed flag is set and the GPU-frame-missed
    flag is not set.  In particular a missed frame whose miss is attributed
    to the GPU is not reported as an HWC frame miss, whatever the HWC flag
    says, while [didMissFrame()] still reports it as missed. *)
Theorem didMissHwcFrame_spec (t : FrameTarget) :
  (didMissHwcFrame t = true ↔
     mHwcFrameMissed t = true ∧ mGpuFrameMissed t = false)
  ∧ (mFrameMissed t = true → mGpuFrameMissed t = true →
     didMissHwcFrame t = false ∧ didMissFrame t = true).
Proof.
  split.
  - apply didMissHwcFrame_true.
  - intros Hmissed Hgpu. split.
    + by apply didMissHwcFrame_gpu.
    + exact Hmissed.
Qed.

(** The theorem at the missed frame that both the GPU and the hardware
    composer took part in: it is a missed frame, and not an HWC miss. *)
Lemma didMissHwcFrame_spec_witness :
  didMissHwcFrame mixedMissedFrame = false
  ∧ didMissFrame mixedMissedFrame = true.
Proof.
  apply (proj2 (didMissHwcFrame_spec mixedMissedFrame)); reflexivity.
Defined.

End FrameTargeterTheorems.

(* --------------------------------------------------------------------- *)
(** ** Display::disconnect                                                *)
(* --------------------------------------------------------------------- *)

Module CompositionDisplayTheorems.
Import CompositionDisplay.

Section DisconnectFacts.

Context {DisplayId HalDisplayId : Type}.
Variable tryCast : DisplayId → option HalDisplayId.

Local Abbreviation Display := (@Display DisplayId HalDisplayId).

Lemma disconnect_marks (d : Display) :
  mIsDisconnected (disconnect tryCast d) = true.
Proof.
  unfold disconnect.
  destruct (mIsDisconnected d) eqn:E; [exact E|]. simpl.
  destruct (tryCast (mId d)); reflexivity.
Qed.

Lemma disconnect_keeps_id (d : Display) :
  mId (disconnect tryCast d) = mId d.
Proof.
  unfold disconnect.
  destruct (mIsDisconnected d); [reflexivity|]. simpl.
  destruct (tryCast (mId d)); reflexivity.
Qed.

Lemma disconnect_calls (d : Display) :
  hwComposer (disconnect tryCast d) =
  hwComposer d ++
    (if mIsDisconnected d then []
     else match tryCast (mId d) with
          | Some id => [disconnectDisplay id]
          | None => []
          end).
Proof.
  unfold disconnect.
  destruct (mIsDisconnected d); [by rewrite app_nil_r|]. simpl.
  destruct (tryCast (mId d)); simpl; [reflexivity|by rewrite app_nil_r].
Qed.

Lemma disconnect_when_disconnected (d : Display) :
  mIsDisconnected d = true → disconnect tryCast d = d.
Proof. intros H. unfold disconnect. by rewrite H. Qed.

Lemma disconnect_twice (d : Display) :
  disconnect tryCast (disconnect tryCast d) = disconnect tryCast d.
Proof. apply disconnect_when_disconnected, disconnect_marks. Qed.

Lemma disconnect_count (d : Display) :
  (disconnectCount (disconnect tryCast d) ≤ S (disconnectCount d))%nat.
Proof.
  unfold disconnectCount. rewrite disconnect_calls, length_app.
  destruct (mIsDisconnected d); [simpl; lia|].
  destruct (tryCast (mId d)); simpl; lia.
Qed.

(** C9.  [Display::disconnect] is idempotent.  Whatever the display [d]:
    after the call the display is marked disconnected and keeps its id; the
    call has added to the composer's calls nothing if the display was
    already disconnected, and otherwise exactly one [disconnectDisplay]
    when the id casts to a [HalDisplayId] and nothing when it does not (so
    at most one call); and any number of further calls leaves the whole
    state as the first call left it. *)
Theorem disconnect_idempotent (d : Display) :
  mIsDisconnected (disconnect tryCast d) = true
  ∧ mId (disconnect tryCast d) = mId d
  ∧ hwComposer (disconnect tryCast d) =
      hwComposer d ++
        (if mIsDisconnected d then []
         else match tryCast (mId d) with
              | Some id => [disconnectDisplay id]
              | None => []
              end)
  ∧ (disconnectCount (disconnect tryCast d) ≤ S (disconnectCount d))%nat
  ∧ ∀ n : nat,
      Nat.iter n (disconnect tryCast) (disconnect tryCast d)
      = disconnect tryCast d.
Proof.
  split; [apply disconnect_marks|].
  split; [apply disconnect_keeps_id|].
  split; [apply disconnect_calls|].
  split; [apply disconnect_count|].
  induction n as [|n IH]; simpl; [reflexivity|].
  rewrite IH. apply disconnect_twice.
Qed.

End DisconnectFacts.

Example disconnect_physical :
  disconnect sampleTryCast
    {| mId := Physical 42; mIsDisconnected := false; hwComposer := [] |}
  = {| mId := Physical 42; mIsDisconnected := true;
       hwComposer := [disconnectDisplay 42] |}.
Proof. reflexivity. Qed.

Example disconnect_gpu_virtual :
  disconnect sampleTryCast
    {| mId := GpuVirtual 7; mIsDisconnected := false; hwComposer := [] |}
  = {| mId := GpuVirtual 7; mIsDisconnected := true; hwComposer := [] |}.
Proof. reflexivity. Qed.

Example disconnect_three_times :
  hwComposer
    (Nat.iter 3 (disconnect sampleTryCast)
       {| mId := HalVirtual 3; mIsDisconnected := false; hwComposer := [] |})
  = [disconnectDisplay 3].
Proof. reflexivity. Qed.

End CompositionDisplayTheorems.

(* --------------------------------------------------------------------- *)
(** ** InputDispatcher: focus resolution                                  *)
(* --------------------------------------------------------------------- *)

Module FocusTheorems.
Import InputDispatcher.

(** Writing back the value a field already has changes nothing. *)
Lemma set_mWindowHandlesByDisplay_same (st : Dispatcher) :
  set_mWindowHandlesByDisplay (mWindowHandlesByDisplay st) st = st.
Proof. by destruct st. Qed.

Lemma enqueueFocusEventLocked_focus slot t d w g st :
  mFocusResolver (enqueueFocusEventLocked slot t d w g st) = mFocusResolver st
  ∧ mWindowHandlesByDisplay (enqueueFocusEventLocked slot t d w g st)
    = mWindowHandlesByDisplay st.
Proof. by split. Qed.

Lemma onFocusChangedLocked_focus slot t ch st :
  mFocusResolver (onFocusChangedLocked slot t ch st) = mFocusResolver st
  ∧ mWindowHandlesByDisplay (onFocusChangedLocked slot t ch st)
    = mWindowHandlesByDisplay st.
Proof.
  unfold onFocusChangedLocked.
  destruct (oldFocus ch), (newFocus ch); by split.
Qed.

(** What [setInputWindowsLocked] leaves in the fields that focus
    resolution reads. *)
Lemma setInputWindowsLocked_fields slot t ws d st :
  mWindowHandlesByDisplay (setInputWindowsLocked slot t ws d st)
  = <[d := ws]> (mWindowHandlesByDisplay st)
  ∧ mFocusRequestByDisplay (mFocusResolver (setInputWindowsLocked slot t ws d st))
    = mFocusRequestByDisplay (mFocusResolver st)
  ∧ mFocusedWindowTokenByDisplay
      (mFocusResolver (setInputWindowsLocked slot t ws d st))
    = match (resolveFocus (mFocusRequestByDisplay (mFocusResolver st) !! d) ws).1 with
      | Some tok => <[d := tok]> (mFocusedWindowTokenByDisplay (mFocusResolver st))
      | None => delete d (mFocusedWindowTokenByDisplay (mFocusResolver st))
      end.
Proof.
  unfold setInputWindowsLocked, resolverSetInputWindows. simpl.
  destruct (resolveFocus _ ws) as [new r]. simpl.
  unfold updateFocusedWindow.
  destruct (decide (new = _)) as [Heq|Hne].
  - simpl. repeat split.
    destruct new as [tok|]; symmetry.
    + by apply insert_id.
    + by apply delete_id.
  - destruct (onFocusChangedLocked_focus slot t
                {| oldFocus := mFocusedWindowTokenByDisplay (mFocusResolver st) !! d;
                   newFocus := new; changedDisplayId := d; reason := r |}
                (set_mFocusResolver
                   {| mFocusedWindowTokenByDisplay :=
                        match new with
                        | Some t0 => <[d:=t0]> (mFocusedWindowTokenByDisplay (mFocusResolver st))
                        | None => delete d (mFocusedWindowTokenByDisplay (mFocusResolver st))
                        end;
                      mFocusRequestByDisplay := mFocusRequestByDisplay (mFocusResolver st) |}
                   (set_mWindowHandlesByDisplay
                      (<[d:=ws]> (mWindowHandlesByDisplay st)) st)))
      as [Hfr Hwh].
    rewrite Hfr, Hwh. by simpl.
Qed.

(** Once a display is settled, setting the same windows again is a
    no-op on the whole state. *)
Lemma setInputWindowsLocked_settled slot t ws d st :
  settled d ws st → setInputWindowsLocked slot t ws d st = st.
Proof.
  intros [Hws Hfocus].
  unfold setInputWindowsLocked, resolverSetInputWindows. simpl.
  destruct (resolveFocus _ ws) as [new r]. simpl in *.
  unfold updateFocusedWindow.
  rewrite decide_True by done.
  rewrite insert_id by done. apply set_mWindowHandlesByDisplay_same.
Qed.

Lemma setInputWindowsLocked_settles slot t ws d st :
  settled d ws (setInputWindowsLocked slot t ws d st).
Proof.
  destruct (setInputWindowsLocked_fields slot t ws d st) as (Hw & Hr & Hf).
  split.
  - rewrite Hw. apply lookup_insert_eq.
  - rewrite Hr, Hf.
    destruct (resolveFocus _ ws).1 as [tok|].
    + by rewrite lookup_insert_eq.
    + by rewrite lookup_delete_eq.
Qed.

(** Updating one display leaves every other display settled. *)
Lemma setInputWindowsLocked_other slot t ws d ws' d' st :
  d ≠ d' → settled d' ws' st →
  settled d' ws' (setInputWindowsLocked slot t ws d st).
Proof.
  intros Hne [Hws Hfocus].
  destruct (setInputWindowsLocked_fields slot t ws d st) as (Hw & Hr & Hf).
  split.
  - rewrite Hw. by rewrite lookup_insert_ne.
  - rewrite Hr, Hf, Hfocus.
    destruct (resolveFocus _ ws).1 as [tok|].
    + by rewrite lookup_insert_ne.
    + by rewrite lookup_delete_ne.
Qed.

Lemma setAll_other slot t l ws' d' st :
  d' ∉ l.*1 → settled d' ws' st → settled d' ws' (setAll slot t l st).
Proof.
  revert st. induction l as [|[d ws] l IH]; intros st Hnotin Hs; [done|].
  simpl in *. apply not_elem_of_cons in Hnotin as [Hne Hnotin].
  apply IH; [done|]. by apply setInputWindowsLocked_other.
Qed.

(** After a pass over displays that are pairwise distinct, each of them
    is settled for its windows. *)
Lemma setAll_settles slot t l st :
  NoDup l.*1 → Forall (λ dw, settled dw.1 dw.2 (setAll slot t l st)) l.
Proof.
  revert st. induction l as [|[d ws] l IH]; intros st Hnd; [constructor|].
  simpl in *. apply NoDup_cons in Hnd as [Hnotin Hnd].
  constructor.
  - simpl. apply setAll_other; [done|]. apply setInputWindowsLocked_settles.
  - by apply IH.
Qed.

(** A pass over settled displays changes nothing. *)
Lemma setAll_settled slot t l st :
  Forall (λ dw, settled dw.1 dw.2 st) l → setAll slot t l st = st.
Proof.
  induction 1 as [|[d ws] l Hs _ IH]; [done|].
  simpl in *. by rewrite setInputWindowsLocked_settled.
Qed.

(** The second of two calls with the same window set leaves the state
    untouched, whenever and with whatever queue position it is made. *)
Lemma setInputWindows_twice slot1 t1 slot2 t2 windows st :
  setInputWindows slot2 t2 windows (setInputWindows slot1 t1 windows st)
  = setInputWindows slot1 t1 windows st.
Proof.
  unfold setInputWindows.
  apply (setAll_settled slot2 t2), (setAll_settles slot1 t1).
  apply NoDup_fst_map_to_list.
Qed.

(** C8.  For every window set and every dispatcher state, a second
    [setInputWindows] call with the same window set, made right after the
    first, produces no additional focus-change notification: the
    notifications posted to the policy, run or queued, are those the
    first call left, and so are the focus of every display and the
    inbound queue (no focus event is synthesized). *)
Theorem setInputWindows_idempotent slot1 t1 slot2 t2
    (windows : gmap Z (list WindowInfo)) (st : Dispatcher) :
  let st1 := setInputWindows slot1 t1 windows st in
  let st2 := setInputWindows slot2 t2 windows st1 in
  focusNotifications st2 = focusNotifications st1
  ∧ mFocusResolver st2 = mFocusResolver st1
  ∧ mInboundQueue st2 = mInboundQueue st1.
Proof.
  simpl. by rewrite setInputWindows_twice.
Qed.

(** The sample window gains focus at the first call and keeps it at the
    second; taking the window away is notified. *)
Example setInputWindows_first_call :
  focusNotifications (setInputWindows 0 2 {[ 0 := [sampleWindow] ]} sampleFocusRequest)
  = [NotifyFocusChanged None (Some 7%nat)].
Proof. vm_compute. reflexivity. Qed.

Example setInputWindows_second_call :
  focusNotifications
    (setInputWindows 0 3 {[ 0 := [sampleWindow] ]}
       (setInputWindows 0 2 {[ 0 := [sampleWindow] ]} sampleFocusRequest))
  = [NotifyFocusChanged None (Some 7%nat)].
Proof. vm_compute. reflexivity. Qed.

Example setInputWindows_other_windows :
  focusNotifications
    (setInputWindows 0 3 {[ 0 := [] ]}
       (setInputWindows 0 2 {[ 0 := [sampleWindow] ]} sampleFocusRequest))
  = [NotifyFocusChanged None (Some 7%nat);
     NotifyFocusChanged (Some 7%nat) None].
Proof. vm_compute. reflexivity. Qed.

End FocusTheorems.

(* --------------------------------------------------------------------- *)
(** ** InputDispatcher: dispatch order                                    *)
(* --------------------------------------------------------------------- *)

Module OrderTheorems.
Import InputDispatcher.

(** **** Lists *)

Lemma omap_cons_eq {A B} (f : A → option B) (c : A) (l : list A) :
  omap f (c :: l) = match f c with
                    | Some y => y :: omap f l
                    | None => omap f l
                    end.
Proof. reflexivity. Qed.

Lemma omap_sorted_lookup {A B} (f : A → option B) (R : relation B)
    (l : list A) (i j : nat) (a b : A) (x y : B) :
  StronglySorted R (omap f l) →
  l !! i = Some a → l !! j = Some b → (i < j)%nat →
  f a = Some x → f b = Some y → R x y.
Proof.
  revert i j. induction l as [|c l IH]; intros i j Hs Hi Hj Hlt Hx Hy; [done|].
  destruct j as [|j]; [lia|]. simpl in Hj.
  rewrite omap_cons_eq in Hs.
  destruct i as [|i]; simpl in Hi.
  - injection Hi as ->. rewrite Hx in Hs.
    apply StronglySorted_inv in Hs as [_ Hall].
    rewrite Forall_forall in Hall. apply Hall.
    apply list_elem_of_omap. exists b. split; [|done].
    by eapply list_elem_of_lookup_2.
  - apply (IH i j); [|done|done|lia|done|done].
    destruct (f c); [|done].
    by apply StronglySorted_inv in Hs as [? _].
Qed.

Lemma omap_fmap_None {A B C} (f : B → option C) (g : A → B) (l : list A) :
  (∀ x, f (g x) = None) → omap f (g <$> l) = [].
Proof.
  intros H. induction l as [|x l IH]; [done|].
  simpl. by rewrite H.
Qed.

Lemma StronglySorted_snoc {A} (R : relation A) (l : list A) (x : A) :
  StronglySorted R l → Forall (λ y, R y x) l → StronglySorted R (l ++ [x]).
Proof.
  intros Hs Hall. apply StronglySorted_app_2.
  - intros x1 x2 H1 H2. apply list_elem_of_singleton in H2 as ->.
    rewrite Forall_forall in Hall. by apply Hall.
  - done.
  - repeat constructor.
Qed.

Lemma deviceIds_app q1 q2 : deviceIds (q1 ++ q2) = deviceIds q1 ++ deviceIds q2.
Proof. unfold deviceIds. by rewrite filter_app, fmap_app. Qed.

Lemma deviceIds_cons_device e q :
  is_Some (deviceId e) → deviceIds (e :: q) = sequenceId e :: deviceIds q.
Proof. intros H. unfold deviceIds. by rewrite filter_cons_True. Qed.

Lemma deviceIds_cons_other e q :
  deviceId e = None → deviceIds (e :: q) = deviceIds q.
Proof.
  intros H. unfold deviceIds. rewrite filter_cons_False; [done|].
  rewrite H. by intros [? ?].
Qed.

Lemma deviceIds_insertAt n e q :
  deviceId e = None → deviceIds (insertAt n e q) = deviceIds q.
Proof.
  intros H. unfold insertAt.
  rewrite deviceIds_app, deviceIds_cons_other, <- deviceIds_app by done.
  by rewrite take_drop.
Qed.

Lemma filter_sublist {A} (P : A → Prop) `{!∀ x, Decision (P x)} (l k : list A) :
  l `sublist_of` k → filter P l `sublist_of` filter P k.
Proof.
  induction 1 as [|x l k Hsub IH|x l k Hsub IH]; [done| |].
  - rewrite !filter_cons. destruct (decide (P x)); [by constructor|done].
  - rewrite filter_cons. destruct (decide (P x)); [by constructor|done].
Qed.

Lemma deviceIds_delete_sublist i q :
  deviceIds (delete i q) `sublist_of` deviceIds q.
Proof.
  unfold deviceIds. apply fmap_sublist, filter_sublist, sublist_delete.
Qed.

Lemma StronglySorted_sublist {A} (R : relation A) (l k : list A) :
  l `sublist_of` k → StronglySorted R k → StronglySorted R l.
Proof.
  induction 1 as [|x l k Hsub IH|x l k Hsub IH]; intros Hs; [done| |].
  - apply StronglySorted_inv in Hs as [Hs Hall]. constructor; [by apply IH|].
    rewrite Forall_forall in *. intros y Hy. apply Hall.
    by eapply elem_of_sublist.
  - apply StronglySorted_inv in Hs as [Hs _]. by apply IH.
Qed.

(** **** The inbound side *)

Lemma Forall_lt_S (l : list nat) (g : nat) :
  Forall (λ n, (n < g)%nat) l → Forall (λ n, (n < S g)%nat) l.
Proof. intros H. eapply Forall_impl; [exact H|]. intros; simpl in *; lia. Qed.

Lemma QueueOrder_initial strict : QueueOrder strict [] [] 0 None [].
Proof.
  constructor; try by constructor.
  - intros x y Hx. by apply elem_of_nil in Hx.
  - intros x e Hx. by apply elem_of_nil in Hx.
Qed.

Lemma QueueOrder_weaken A D g p q :
  QueueOrder true A D g p q → QueueOrder false A D g p q.
Proof.
  intros [? ? ? ? ? ? ? Hp]. constructor; try done.
  intros x e Hx He Hd. specialize (Hp x e Hx He Hd). simpl in Hp. lia.
Qed.

Lemma QueueOrder_no_pending s s' A D g q :
  QueueOrder s A D g None q → QueueOrder s' A D g None q.
Proof. intros [? ? ? ? ? ? ? ?]. by constructor. Qed.

(** A sequence id is allocated for an entry that does not enter the
    queue. *)
Lemma QueueOrder_allocate s A D g p q :
  QueueOrder s A D g p q → QueueOrder s (A ++ [g]) D (S g) p q.
Proof.
  intros [? ? ? ? ? ? ? ?]. constructor; try done.
  - by apply StronglySorted_snoc.
  - apply Forall_app. split; [by apply Forall_lt_S|]. repeat constructor.
  - by apply Forall_lt_S.
  - by apply Forall_lt_S.
Qed.

(** An entry with a fresh id goes to the back of the queue. *)
Lemma QueueOrder_arrive s A D g p q e :
  sequenceId e = g →
  QueueOrder s A D g p q → QueueOrder s (A ++ [g]) D (S g) p (q ++ [e]).
Proof.
  intros Hid HQ. pose proof (qo_queue_bound _ _ _ _ _ _ HQ) as Hqb0.
  pose proof (qo_disp_bound _ _ _ _ _ _ HQ) as Hdb0.
  apply QueueOrder_allocate in HQ.
  destruct HQ as [? ? Hqs Hqb ? Hdb Hdq ?]. constructor; try done.
  - rewrite app_assoc, deviceIds_app.
    destruct (deviceId e) as [dev|] eqn:Hdev.
    + rewrite (deviceIds_cons_device e []) by (by rewrite Hdev).
      apply StronglySorted_snoc; [done|].
      by rewrite Hid.
    + rewrite (deviceIds_cons_other e []) by done.
      by rewrite app_nil_r.
  - rewrite app_assoc, deviceIds_app. apply Forall_app. split; [done|].
    destruct (deviceId e) as [dev|] eqn:Hdev.
    + rewrite (deviceIds_cons_device e []) by (by rewrite Hdev).
      constructor; [simpl; lia|constructor].
    + rewrite (deviceIds_cons_other e []) by done. constructor.
  - intros x y Hx Hy. rewrite deviceIds_app in Hy.
    apply elem_of_app in Hy as [Hy|Hy]; [by apply Hdq|].
    destruct (deviceId e) as [dev|] eqn:Hdev.
    + rewrite (deviceIds_cons_device e []) in Hy by (by rewrite Hdev).
      apply list_elem_of_singleton in Hy as ->.
      rewrite Forall_forall in Hdb0. specialize (Hdb0 x Hx). simpl in Hdb0. lia.
    + rewrite (deviceIds_cons_other e []) in Hy by done.
      by apply elem_of_nil in Hy.
Qed.

(** An entry with a fresh id and no device goes anywhere in the queue. *)
Lemma QueueOrder_insert s A D g p q e n :
  deviceId e = None →
  QueueOrder s A D g p q →
  QueueOrder s (A ++ [g]) D (S g) p (insertAt n e q).
Proof.
  intros Hdev HQ. apply QueueOrder_allocate in HQ.
  destruct HQ as [? ? Hqs Hqb ? Hdb Hdq ?]. constructor; try done.
  - by rewrite deviceIds_app, deviceIds_insertAt, <- deviceIds_app.
  - by rewrite deviceIds_app, deviceIds_insertAt, <- deviceIds_app.
  - intros x y Hx Hy. rewrite deviceIds_insertAt in Hy by done. by apply Hdq.
Qed.

(** An entry leaves the queue without being dispatched. *)
Lemma QueueOrder_prune s A D g p q i :
  QueueOrder s A D g p q → QueueOrder s A D g p (delete i q).
Proof.
  intros [? ? Hqs Hqb ? Hdb Hdq ?].
  assert (deviceIds (option_list p ++ delete i q)
            `sublist_of` deviceIds (option_list p ++ q)) as Hsub.
  { rewrite !deviceIds_app. apply sublist_app; [done|].
    apply deviceIds_delete_sublist. }
  constructor; try done.
  - by eapply StronglySorted_sublist.
  - rewrite Forall_forall in *. intros y Hy. apply Hqb.
    by eapply elem_of_sublist.
  - intros x y Hx Hy. apply Hdq; [done|].
    eapply elem_of_sublist; [done|]. apply deviceIds_delete_sublist.
Qed.

(** The head of the queue becomes the pending event. *)
Lemma QueueOrder_fetch s A D g e q :
  QueueOrder s A D g None (e :: q) → QueueOrder true A D g (Some e) q.
Proof.
  intros [? ? Hqs Hqb ? Hdb Hdq ?].
  constructor; try done.
  - intros x y Hx Hy. apply Hdq; [done|].
    destruct (deviceId e) as [dev|] eqn:Hdev.
    + rewrite deviceIds_cons_device by (by rewrite Hdev). by right.
    + by rewrite deviceIds_cons_other.
  - intros x e' Hx [= <-] Hdev. apply Hdq; [done|].
    rewrite deviceIds_cons_device by done. by left.
Qed.

(** A key repeat with a fresh id becomes the pending event of an empty
    queue. *)
Lemma QueueOrder_repeat s A D g e :
  sequenceId e = g →
  QueueOrder s A D g None [] → QueueOrder true (A ++ [g]) D (S g) (Some e) [].
Proof.
  intros Hid HQ. pose proof (qo_disp_bound _ _ _ _ _ _ HQ) as Hdb0.
  apply QueueOrder_allocate in HQ.
  destruct HQ as [? ? Hqs Hqb ? Hdb Hdq ?].
  constructor; try done.
  - change (option_list (Some e) ++ []) with [e].
    destruct (deviceId e) as [dev|] eqn:Hdev.
    + rewrite deviceIds_cons_device by (by rewrite Hdev). repeat constructor.
    + rewrite deviceIds_cons_other by done. constructor.
  - change (option_list (Some e) ++ []) with [e].
    destruct (deviceId e) as [dev|] eqn:Hdev.
    + rewrite deviceIds_cons_device by (by rewrite Hdev).
      constructor; [simpl; lia|constructor].
    + rewrite deviceIds_cons_other by done. constructor.
  - intros x e' Hx [= <-] _. rewrite Forall_forall in Hdb0.
    specialize (Hdb0 x Hx). simpl in Hdb0. lia.
Qed.

(** The pending event is released. *)
Lemma QueueOrder_release s A D g e q :
  QueueOrder s A D g (Some e) q → QueueOrder true A D g None q.
Proof.
  intros [? ? Hqs Hqb ? Hdb Hdq ?].
  change (option_list (Some e) ++ q) with ([e] ++ q) in Hqs, Hqb.
  rewrite (deviceIds_app [e] q) in Hqs, Hqb.
  constructor; try done.
  - by apply StronglySorted_app_1_r in Hqs.
  - by apply Forall_app in Hqb as [_ ?].
Qed.

(** The pending event is dispatched to one more connection. *)
Lemma QueueOrder_dispatch A D g e q tok sq :
  QueueOrder false A D g (Some e) q →
  QueueOrder false A (D ++ omap dispatchedId [Enqueued tok sq e]) g (Some e) q.
Proof.
  intros HQ. rewrite omap_cons_eq. cbn [dispatchedId].
  destruct (deviceId e) as [dev|] eqn:Hdev; [|by rewrite app_nil_r].
  pose proof HQ as [? ? Hqs Hqb Hds Hdb Hdq Hdp].
  change (option_list (Some e) ++ q) with ([e] ++ q) in Hqs, Hqb.
  rewrite (deviceIds_app [e] q) in Hqs, Hqb.
  rewrite (deviceIds_cons_device e []) in Hqs, Hqb by (by rewrite Hdev).
  destruct HQ as [? ? ? ? _ _ _ _].
  constructor; try done.
  - apply StronglySorted_snoc; [done|].
    apply Forall_forall. intros x Hx.
    apply (Hdp x e Hx eq_refl). by rewrite Hdev.
  - apply Forall_app. split; [done|].
    apply Forall_app in Hqb as [Hqb _]. apply Forall_cons in Hqb as [Hqb _].
    by repeat constructor.
  - intros x y Hx Hy. apply elem_of_app in Hx as [Hx|Hx]; [by apply Hdq|].
    apply list_elem_of_singleton in Hx as ->.
    eapply (StronglySorted_app_1_elem_of _ _ _ _ _ Hqs); [by left|done].
  - intros x e' Hx [= <-] _. apply elem_of_app in Hx as [Hx|Hx].
    + apply (Hdp x e Hx eq_refl). by rewrite Hdev.
    + apply list_elem_of_singleton in Hx as ->. done.
Qed.

(** **** The outbound side *)

Lemma justified_app h os tok d :
  justified h tok d → justified (h ++ os) tok d.
Proof. intros [H|H]; [left|right]; apply elem_of_app; by left. Qed.

Lemma ChannelOrder_initial : ChannelOrder [] ∅.
Proof.
  constructor.
  - intros tok s e H. by apply elem_of_nil in H.
  - intros j tok s e H. done.
  - intros tok c H. done.
Qed.

Lemma published_before h os j tok s e :
  (∀ j tok s e, h !! j = Some (Published tok s e) →
     ∃ k, (k < j)%nat ∧
          (h !! k = Some (Enqueued tok s e)
           ∨ h !! k = Some (EnqueuedCancelation tok s e))) →
  (∀ tok s e, Published tok s e ∈ os →
     Enqueued tok s e ∈ h ∨ EnqueuedCancelation tok s e ∈ h) →
  (h ++ os) !! j = Some (Published tok s e) →
  ∃ k, (k < j)%nat ∧
       ((h ++ os) !! k = Some (Enqueued tok s e)
        ∨ (h ++ os) !! k = Some (EnqueuedCancelation tok s e)).
Proof.
  intros Hold Hnew Hj. apply lookup_app_Some in Hj as [Hj|[Hlen Hj]].
  - destruct (Hold _ _ _ _ Hj) as (k & Hk & Hobs). exists k. split; [done|].
    destruct Hobs as [Hobs|Hobs]; [left|right];
      by apply lookup_app_l_Some.
  - apply list_elem_of_lookup_2, Hnew in Hj.
    destruct Hj as [Hj|Hj]; apply list_elem_of_lookup_1 in Hj as [k Hk];
      exists k; (split; [apply lookup_lt_Some in Hk; lia|]);
      [left|right]; by apply lookup_app_l_Some.
Qed.

(** The history grows by observations that concern no channel. *)
Lemma ChannelOrder_quiet h m os :
  Forall quiet os → ChannelOrder h m → ChannelOrder (h ++ os) m.
Proof.
  intros Hq [Hc Hp Ho]. rewrite Forall_forall in Hq. constructor.
  - intros tok s e H. apply elem_of_app in H as [H|H].
    + apply elem_of_app. left. by eapply Hc.
    + by apply Hq in H.
  - intros j tok s e H. eapply published_before; [done| |done].
    intros tok' s' e' H'. by apply Hq in H'.
  - intros tok c H. eapply Forall_impl; [by eapply Ho|].
    intros d. apply justified_app.
Qed.

(** A connection is replaced by one whose outbound queue is justified. *)
Lemma ChannelOrder_update h m tok c :
  Forall (justified h tok) (outboundQueue c) →
  ChannelOrder h m → ChannelOrder h (<[tok := c]> m).
Proof.
  intros Hj [Hc Hp Ho]. constructor; [done|done|].
  intros tok' c' H. destruct (decide (tok = tok')) as [<-|Hne].
  - rewrite lookup_insert_eq in H. by injection H as <-.
  - rewrite lookup_insert_ne in H by done. by eapply Ho.
Qed.

Lemma ChannelOrder_delete h m tok :
  ChannelOrder h m → ChannelOrder h (delete tok m).
Proof.
  intros [Hc Hp Ho]. constructor; [done|done|].
  intros tok' c' H. apply lookup_delete_Some in H as [_ H]. by eapply Ho.
Qed.

(** A dispatch entry is appended to the outbound queue of a connection. *)
Lemma ChannelOrder_enqueue h m tok c e (cancelation : bool) :
  m !! tok = Some c →
  (cancelation = true → Created e ∈ h) →
  ChannelOrder h m →
  ChannelOrder
    (h ++ [if cancelation then EnqueuedCancelation tok (sequenceCounter c) e
           else Enqueued tok (sequenceCounter c) e])
    (<[tok := {| outboundQueue :=
                   outboundQueue c
                   ++ [{| eventEntry := e; seq := sequenceCounter c;
                          deliveryTime := 0 |}];
                 waitQueue := waitQueue c;
                 sequenceCounter := S (sequenceCounter c) |}]> m).
Proof.
  intros Hc Hcreated HC. pose proof HC as [Hcan Hp Ho].
  apply ChannelOrder_update.
  - simpl. apply Forall_app. split.
    + eapply Forall_impl; [by eapply Ho|]. intros d. apply justified_app.
    + constructor; [|constructor]. unfold justified. simpl.
      destruct cancelation; [right|left]; apply elem_of_app; right;
        by apply list_elem_of_singleton.
  - constructor.
    + intros tok' s' e' H. apply elem_of_app in H as [H|H].
      * apply elem_of_app. left. by eapply Hcan.
      * apply list_elem_of_singleton in H. destruct cancelation; [|done].
        injection H as -> -> ->. apply elem_of_app. left. by apply Hcreated.
    + intros j tok' s' e' H. eapply published_before; [done| |done].
      intros tok'' s'' e'' H'. apply list_elem_of_singleton in H'.
      by destruct cancelation.
    + intros tok' c' H. eapply Forall_impl; [by eapply Ho|].
      intros d. apply justified_app.
Qed.

(** Entries of the outbound queue of a connection are written to its
    channel. *)
Lemma ChannelOrder_publish h m tok c c' n :
  m !! tok = Some c →
  outboundQueue c' = drop n (outboundQueue c) →
  ChannelOrder h m →
  ChannelOrder
    (h ++ ((λ d, Published tok (seq d) (eventEntry d))
             <$> take n (outboundQueue c)))
    (<[tok := c']> m).
Proof.
  intros Hc Hout HC. pose proof HC as [Hcan Hp Ho].
  pose proof (Ho _ _ Hc) as Hjust. rewrite Forall_forall in Hjust.
  apply ChannelOrder_update.
  - rewrite Hout. apply Forall_forall. intros d Hd.
    apply justified_app, Hjust.
    eapply elem_of_sublist; [done|apply sublist_drop].
  - constructor.
    + intros tok' s' e' H. apply elem_of_app in H as [H|H].
      * apply elem_of_app. left. by eapply Hcan.
      * apply list_elem_of_fmap in H as (d & Hd & _). done.
    + intros j tok' s' e' H. eapply published_before; [done| |done].
      intros tok'' s'' e'' H'.
      apply list_elem_of_fmap in H' as (d & [= -> -> ->] & Hd).
      apply Hjust. eapply elem_of_sublist; [done|apply sublist_take].
    + intros tok' c'' H. eapply Forall_impl; [by eapply Ho|].
      intros d. apply justified_app.
Qed.

(** **** The invariant is kept by every operation *)

Lemma silent_omap {B} (f : Observation → option B) (os : list Observation) :
  (∀ o, silent o → f o = None) → Forall silent os → omap f os = [].
Proof.
  intros Hf. induction 1 as [|o os Ho _ IH]; [done|].
  rewrite omap_cons_eq, (Hf o Ho). done.
Qed.

Lemma silent_allocId o : silent o → allocId o = None.
Proof. by destruct o. Qed.

Lemma silent_dispatchedId o : silent o → dispatchedId o = None.
Proof. by destruct o. Qed.

Lemma silent_quiet o : silent o → quiet o.
Proof. by destruct o. Qed.

Lemma invariant_initial t enabled frozen :
  invariant true (initialDispatcher t enabled frozen).
Proof. split; [apply QueueOrder_initial|apply ChannelOrder_initial]. Qed.

Lemma invariant_weaken st : invariant true st → invariant false st.
Proof. intros [HQ HC]. split; [by apply QueueOrder_weaken|done]. Qed.

(** An operation that leaves the queues and the connections alone and
    adds only silent observations keeps the invariant. *)
Lemma invariant_frame s st st' os :
  history st' = history st ++ os → Forall silent os →
  mIdGenerator st' = mIdGenerator st →
  mPendingEvent st' = mPendingEvent st →
  mInboundQueue st' = mInboundQueue st →
  mConnectionsByToken st' = mConnectionsByToken st →
  invariant s st → invariant s st'.
Proof.
  intros Hh Hs Hg Hp Hq Hm [HQ HC]. unfold invariant.
  rewrite Hh, Hg, Hp, Hq, Hm, !omap_app.
  rewrite (silent_omap allocId os silent_allocId Hs).
  rewrite (silent_omap dispatchedId os silent_dispatchedId Hs).
  rewrite !app_nil_r. split; [done|].
  apply ChannelOrder_quiet; [|done].
  eapply Forall_impl; [done|]. apply silent_quiet.
Qed.

(** An operation on the connections that leaves the inbound side alone
    keeps the invariant if it keeps the outbound side. *)
Lemma invariant_channel s st st' :
  omap allocId (history st') = omap allocId (history st) →
  omap dispatchedId (history st') = omap dispatchedId (history st) →
  mIdGenerator st' = mIdGenerator st →
  mPendingEvent st' = mPendingEvent st →
  mInboundQueue st' = mInboundQueue st →
  ChannelOrder (history st') (mConnectionsByToken st') →
  invariant s st → invariant s st'.
Proof.
  intros Ha Hd Hg Hp Hq HC' [HQ HC]. unfold invariant.
  by rewrite Ha, Hd, Hg, Hp, Hq.
Qed.

Lemma invariant_postCommandLocked s c st :
  invariant s st → invariant s (postCommandLocked c st).
Proof.
  apply (invariant_frame s st _ []); try done.
  simpl. by rewrite app_nil_r.
Qed.

Lemma invariant_runCommandsLockedInterruptable s st :
  invariant s st → invariant s (runCommandsLockedInterruptable st).
Proof.
  apply (invariant_frame s st _ (PolicyCall <$> mCommandQueue st)); try done.
  apply Forall_fmap, Forall_true. done.
Qed.

Lemma invariant_set_mLastDropReason s r st :
  invariant s st → invariant s (set_mLastDropReason r st).
Proof.
  apply (invariant_frame s st _ []); try done.
  simpl. by rewrite app_nil_r.
Qed.

Lemma invariant_set_mFocusResolver s fr st :
  invariant s st → invariant s (set_mFocusResolver fr st).
Proof.
  apply (invariant_frame s st _ []); try done.
  simpl. by rewrite app_nil_r.
Qed.

Lemma invariant_set_mWindowHandlesByDisplay s w st :
  invariant s st → invariant s (set_mWindowHandlesByDisplay w st).
Proof.
  apply (invariant_frame s st _ []); try done.
  simpl. by rewrite app_nil_r.
Qed.

Lemma invariant_setInputDispatchMode s enabled frozen st :
  invariant s st → invariant s (setInputDispatchMode enabled frozen st).
Proof.
  apply (invariant_frame s st _ []); try done.
  simpl. by rewrite app_nil_r.
Qed.

Lemma invariant_dropInboundEventLocked s e r st :
  invariant s st → invariant s (dropInboundEventLocked e r st).
Proof.
  apply (invariant_frame s st _ [Dropped e r]); try done.
  by repeat constructor.
Qed.

Lemma invariant_enqueueInboundEventLocked s args st :
  invariant s st → invariant s (enqueueInboundEventLocked args st).
Proof.
  intros [HQ HC]. split; simpl.
  - rewrite omap_app. simpl. rewrite omap_app. simpl. rewrite app_nil_r.
    by apply QueueOrder_arrive.
  - apply ChannelOrder_quiet; [|done]. by repeat constructor.
Qed.

Lemma invariant_enqueueFocusEventLocked s slot t d w g st :
  invariant s st → invariant s (enqueueFocusEventLocked slot t d w g st).
Proof.
  intros [HQ HC]. split; simpl.
  - rewrite omap_app. simpl. rewrite omap_app. simpl. rewrite app_nil_r.
    by apply QueueOrder_insert.
  - apply ChannelOrder_quiet; [|done]. by repeat constructor.
Qed.

Lemma invariant_pruneInboundQueueLocked s i st :
  invariant s st → invariant s (pruneInboundQueueLocked i st).
Proof.
  intros [HQ HC]. unfold pruneInboundQueueLocked.
  destruct (mInboundQueue st !! i) as [e|]; [|done].
  destruct (decide _); [|done].
  split; simpl; [|done]. by apply QueueOrder_prune.
Qed.

Lemma invariant_createInputChannel s st :
  invariant s st → invariant s (createInputChannel st).
Proof.
  intros Hinv. apply (invariant_channel s st); [done..| |done].
  simpl. apply ChannelOrder_update; [constructor|]. by destruct Hinv.
Qed.

Lemma invariant_removeInputChannelLocked s tok notify st :
  invariant s st → invariant s (removeInputChannelLocked tok notify st).
Proof.
  intros Hinv. unfold removeInputChannelLocked.
  destruct (mConnectionsByToken st !! tok); [|done].
  assert (invariant s (set_mConnectionsByToken
                         (delete tok (mConnectionsByToken st)) st)) as H.
  { apply (invariant_channel s st); [done..| |done].
    simpl. apply ChannelOrder_delete. by destruct Hinv. }
  destruct notify; [by apply invariant_postCommandLocked|done].
Qed.

Lemma invariant_startDispatchCycleLocked s t ch tok st :
  invariant s st → invariant s (startDispatchCycleLocked t ch tok st).
Proof.
  intros Hinv. unfold startDispatchCycleLocked.
  destruct (mConnectionsByToken st !! tok) as [c|] eqn:Hc; [|done].
  destruct (ch tok) as [n|]; [|by apply invariant_removeInputChannelLocked].
  apply (invariant_channel s st); [..|done]; simpl; try done.
  - rewrite omap_app, omap_fmap_None by done. by rewrite app_nil_r.
  - rewrite omap_app, omap_fmap_None by done. by rewrite app_nil_r.
  - eapply ChannelOrder_publish; [done|done|by destruct Hinv].
Qed.

Lemma invariant_finishDispatchCycleLocked s t ch tok sq st :
  invariant s st → invariant s (finishDispatchCycleLocked t ch tok sq st).
Proof.
  intros Hinv. unfold finishDispatchCycleLocked.
  destruct (mConnectionsByToken st !! tok) as [c|] eqn:Hc; [|done].
  destruct (existsb _ _); [|done].
  match goal with
  | |- context [set_mConnectionsByToken ?m st] =>
      assert (invariant s (set_mConnectionsByToken m st)) as H
  end.
  { apply (invariant_channel s st); [done..| |done].
    simpl. destruct Hinv as [_ HC]. apply ChannelOrder_update; [|done].
    simpl. by eapply co_outbound. }
  destruct (outboundQueue c); [done|].
  by apply invariant_startDispatchCycleLocked.
Qed.

Lemma startDispatchCycleLocked_pending t ch tok st :
  mPendingEvent (startDispatchCycleLocked t ch tok st) = mPendingEvent st.
Proof.
  unfold startDispatchCycleLocked, removeInputChannelLocked.
  destruct (mConnectionsByToken st !! tok); [|done].
  by destruct (ch tok).
Qed.

Lemma enqueueDispatchEntryLocked_pending tok e b st :
  mPendingEvent (enqueueDispatchEntryLocked tok e b st) = mPendingEvent st.
Proof.
  unfold enqueueDispatchEntryLocked.
  by destruct (mConnectionsByToken st !! tok).
Qed.

Lemma enqueueDispatchEntriesLocked_pending t ch tok e st :
  mPendingEvent (enqueueDispatchEntriesLocked t ch tok e st) = mPendingEvent st.
Proof.
  unfold enqueueDispatchEntriesLocked.
  destruct (mConnectionsByToken st !! tok) as [c|]; [|done].
  destruct (outboundQueue c), (waitQueue c);
    rewrite ?startDispatchCycleLocked_pending;
    apply enqueueDispatchEntryLocked_pending.
Qed.

(** A synthesized cancellation is enqueued: the inbound side does not
    see it. *)
Lemma invariant_enqueueCancelation s tok e st :
  Created e ∈ history st →
  invariant s st → invariant s (enqueueDispatchEntryLocked tok e true st).
Proof.
  intros Hcreated Hinv. unfold enqueueDispatchEntryLocked.
  destruct (mConnectionsByToken st !! tok) as [c|] eqn:Hc; [|done].
  apply (invariant_channel s st); [..|done]; simpl; try done.
  - rewrite omap_app. simpl. by rewrite app_nil_r.
  - rewrite omap_app. simpl. by rewrite app_nil_r.
  - apply (ChannelOrder_enqueue _ _ tok c e true); [done|done|].
    by destruct Hinv.
Qed.

(** The pending event is enqueued for one of its targets. *)
Lemma invariant_enqueueDispatchEntryLocked tok e st :
  mPendingEvent st = Some e →
  invariant false st → invariant false (enqueueDispatchEntryLocked tok e false st).
Proof.
  intros Hp [HQ HC]. unfold enqueueDispatchEntryLocked.
  destruct (mConnectionsByToken st !! tok) as [c|] eqn:Hc; [|done].
  split; simpl.
  - rewrite !omap_app. simpl (omap allocId _). rewrite app_nil_r.
    rewrite Hp in *. by apply QueueOrder_dispatch.
  - by apply (ChannelOrder_enqueue _ _ tok c e false).
Qed.

Lemma invariant_enqueueDispatchEntriesLocked t ch tok e st :
  mPendingEvent st = Some e →
  invariant false st →
  invariant false (enqueueDispatchEntriesLocked t ch tok e st).
Proof.
  intros Hp Hinv. unfold enqueueDispatchEntriesLocked.
  destruct (mConnectionsByToken st !! tok) as [c|] eqn:Hc; [|done].
  pose proof (invariant_enqueueDispatchEntryLocked tok e st Hp Hinv) as H.
  destruct (outboundQueue c), (waitQueue c);
    try apply invariant_startDispatchCycleLocked; done.
Qed.

Lemma invariant_dispatchEventLocked t ch e targets st :
  mPendingEvent st = Some e →
  invariant false st →
  invariant false (dispatchEventLocked t ch e targets st)
  ∧ mPendingEvent (dispatchEventLocked t ch e targets st) = Some e.
Proof.
  unfold dispatchEventLocked. revert st.
  induction targets as [|tok targets IH]; intros st Hp Hinv; [done|].
  simpl. apply IH.
  - by rewrite enqueueDispatchEntriesLocked_pending.
  - by apply invariant_enqueueDispatchEntriesLocked.
Qed.

Lemma invariant_synthesizeCancelation s t ch tok args st :
  invariant s st →
  invariant s (synthesizeCancelationEventsForConnectionLocked t ch tok args st).
Proof.
  intros [HQ HC]. unfold synthesizeCancelationEventsForConnectionLocked.
  destruct (mConnectionsByToken st !! tok) as [c|] eqn:Hc; [|done].
  apply invariant_startDispatchCycleLocked, invariant_enqueueCancelation.
  - simpl. apply elem_of_app. right. by apply list_elem_of_singleton.
  - split; simpl.
    + rewrite !omap_app. simpl. rewrite app_nil_r.
      by apply QueueOrder_allocate.
    + apply ChannelOrder_quiet; [|done]. by repeat constructor.
Qed.

Lemma invariant_onFocusChangedLocked s slot t ch st :
  invariant s st → invariant s (onFocusChangedLocked slot t ch st).
Proof.
  intros Hinv. unfold onFocusChangedLocked, sendFocusChangedCommandLocked.
  apply invariant_postCommandLocked.
  destruct (oldFocus ch), (newFocus ch);
    repeat apply invariant_enqueueFocusEventLocked; done.
Qed.

Lemma invariant_setInputWindowsLocked s slot t ws d st :
  invariant s st → invariant s (setInputWindowsLocked slot t ws d st).
Proof.
  intros Hinv. unfold setInputWindowsLocked.
  destruct (resolverSetInputWindows _ _ _) as [fr [ch|]].
  - by apply invariant_onFocusChangedLocked, invariant_set_mFocusResolver,
      invariant_set_mWindowHandlesByDisplay.
  - by apply invariant_set_mWindowHandlesByDisplay.
Qed.

Lemma invariant_setInputWindows s slot t w st :
  invariant s st → invariant s (setInputWindows slot t w st).
Proof.
  unfold setInputWindows, setAll. generalize (map_to_list w). intros l. revert st.
  induction l as [|[d ws] l IH]; intros st Hinv; [done|].
  simpl. by apply IH, invariant_setInputWindowsLocked.
Qed.

Lemma invariant_setFocusedWindow s slot t d tok st :
  invariant s st → invariant s (setFocusedWindow slot t d tok st).
Proof.
  intros Hinv. unfold setFocusedWindow.
  destruct (resolverSetFocusedWindow _ _ _ _) as [fr [ch|]].
  - by apply invariant_onFocusChangedLocked, invariant_set_mFocusResolver.
  - by apply invariant_set_mFocusResolver.
Qed.

(** Between two calls no event is being dispatched, so the invariant
    holds in its strict form. *)
Lemma invariant_fetchPendingEventLocked oracle st :
  invariant true st → invariant true (fetchPendingEventLocked oracle st).
Proof.
  intros Hinv. pose proof Hinv as [HQ HC]. unfold fetchPendingEventLocked.
  destruct (mPendingEvent st) as [e|] eqn:Hp; [done|].
  destruct (mInboundQueue st) as [|e q] eqn:Hq.
  - destruct (keyRepeat oracle) as [args|]; [|done].
    split; simpl.
    + rewrite !omap_app. simpl. rewrite app_nil_r, ?Hq.
      by eapply QueueOrder_repeat.
    + apply ChannelOrder_quiet; [|done]. by repeat constructor.
  - split; simpl; [|done].
    by eapply QueueOrder_fetch.
Qed.

Lemma invariant_releasePendingEventLocked s st :
  invariant s st → invariant true (releasePendingEventLocked st).
Proof.
  intros [HQ HC]. split; simpl; [|done].
  destruct (mPendingEvent st) as [e|] eqn:Hp.
  - by eapply QueueOrder_release.
  - by eapply QueueOrder_no_pending.
Qed.

Lemma invariant_dispatchOnceInnerLocked t oracle st :
  invariant true st → invariant true (dispatchOnceInnerLocked t oracle st).
Proof.
  intros Hinv. unfold dispatchOnceInnerLocked.
  destruct (negb (mDispatchEnabled st) || mDispatchFrozen st); [done|].
  apply (invariant_fetchPendingEventLocked oracle) in Hinv.
  destruct (mPendingEvent (fetchPendingEventLocked oracle st)) as [e|] eqn:Hp;
    [|done].
  destruct (decide _) as [_|_].
  - destruct (resolution oracle) as [| |targets]; [done| |].
    + by eapply invariant_set_mLastDropReason,
        invariant_releasePendingEventLocked.
    + eapply invariant_set_mLastDropReason,
        invariant_releasePendingEventLocked.
      by apply invariant_dispatchEventLocked, invariant_weaken.
  - by eapply invariant_set_mLastDropReason,
      invariant_releasePendingEventLocked, invariant_dropInboundEventLocked.
Qed.

Lemma invariant_step c st : invariant true st → invariant true (step c st).
Proof.
  intros Hinv. destruct c; simpl.
  - by apply invariant_enqueueInboundEventLocked.
  - by apply invariant_pruneInboundQueueLocked.
  - by apply invariant_runCommandsLockedInterruptable,
      invariant_dispatchOnceInnerLocked.
  - by apply invariant_finishDispatchCycleLocked.
  - by apply invariant_synthesizeCancelation.
  - by apply invariant_createInputChannel.
  - by apply invariant_removeInputChannelLocked.
  - by apply invariant_setInputWindows.
  - by apply invariant_setFocusedWindow.
  - by apply invariant_setInputDispatchMode.
Qed.

Lemma reachable_invariant st : reachable st → invariant true st.
Proof.
  induction 1 as [t enabled frozen|c st _ IH].
  - apply invariant_initial.
  - by apply invariant_step.
Qed.

Lemma reachable_run calls st : reachable st → reachable (run calls st).
Proof.
  unfold run. revert st.
  induction calls as [|c calls IH]; intros st H; [done|].
  simpl. apply IH. by constructor.
Qed.

(** **** Sequence numbers *)

Lemma unsequenced_omap {B} (f : Observation → option B)
    (os : list Observation) :
  (∀ o, unsequenced o → f o = None) → Forall unsequenced os → omap f os = [].
Proof.
  intros Hf. induction 1 as [|o os Ho _ IH]; [done|].
  by rewrite omap_cons_eq, (Hf o Ho).
Qed.

Lemma unsequenced_enqueuedSeq tok o : unsequenced o → enqueuedSeq tok o = None.
Proof. by destruct o. Qed.

Lemma unsequenced_publishedSeq tok o :
  unsequenced o → publishedSeq tok o = None.
Proof. by destruct o. Qed.

Lemma SeqOrder_initial : SeqOrder [] ∅ 0.
Proof.
  constructor; try done; try (intros; constructor).
Qed.

(** The history grows by observations that concern no connection. *)
Lemma SeqOrder_unsequenced h m next os :
  Forall unsequenced os → SeqOrder h m next → SeqOrder (h ++ os) m next.
Proof.
  intros Hos HS.
  assert (∀ tok, omap (enqueuedSeq tok) (h ++ os) = omap (enqueuedSeq tok) h)
    as He.
  { intros tok. rewrite omap_app.
    rewrite (unsequenced_omap _ os (unsequenced_enqueuedSeq tok) Hos).
    apply app_nil_r. }
  assert (∀ tok, omap (publishedSeq tok) (h ++ os) = omap (publishedSeq tok) h)
    as Hp.
  { intros tok. rewrite omap_app.
    rewrite (unsequenced_omap _ os (unsequenced_publishedSeq tok) Hos).
    apply app_nil_r. }
  destruct HS. constructor; intros; rewrite ?He, ?Hp in *; eauto.
Qed.

(** A connection is replaced by one with the same outbound queue and
    counter. *)
Lemma SeqOrder_wait h m next tok c c' :
  m !! tok = Some c →
  outboundQueue c' = outboundQueue c →
  sequenceCounter c' = sequenceCounter c →
  SeqOrder h m next → SeqOrder h (<[tok := c']> m) next.
Proof.
  intros Hc Ho Hn HS.
  assert (∀ tok' c'', <[tok := c']> m !! tok' = Some c'' →
            ∃ c0, m !! tok' = Some c0
                  ∧ outboundQueue c'' = outboundQueue c0
                  ∧ sequenceCounter c'' = sequenceCounter c0) as Hlook.
  { intros tok' c'' H. destruct (decide (tok = tok')) as [<-|Hne].
    - rewrite lookup_insert_eq in H. injection H as <-. by exists c.
    - rewrite lookup_insert_ne in H by done. by exists c''. }
  destruct HS as [H1 H2 H3 H4 H5 H6 H7 H8]. constructor; try done.
  - intros tok' c'' H. destruct (Hlook _ _ H) as (c0 & H0 & _ & ->); eauto.
  - intros tok' c'' H. destruct (Hlook _ _ H) as (c0 & H0 & _ & ->); eauto.
  - intros tok' c'' H. destruct (Hlook _ _ H) as (c0 & H0 & -> & _); eauto.
  - intros tok' c'' H. destruct (Hlook _ _ H) as (c0 & H0 & -> & ->); eauto.
  - intros tok' c'' x y H. destruct (Hlook _ _ H) as (c0 & H0 & -> & _); eauto.
  - intros tok' Hle. destruct (H8 tok' Hle) as (Hnone & ? & ?).
    split; [|done]. rewrite lookup_insert_ne; [done|].
    intros <-. by rewrite Hc in Hnone.
Qed.

Lemma SeqOrder_delete h m next tok :
  SeqOrder h m next → SeqOrder h (delete tok m) next.
Proof.
  intros [H1 H2 H3 H4 H5 H6 H7 H8]. constructor; try done.
  - intros tok' c H. apply lookup_delete_Some in H as [_ H]. eauto.
  - intros tok' c H. apply lookup_delete_Some in H as [_ H]. eauto.
  - intros tok' c H. apply lookup_delete_Some in H as [_ H]. eauto.
  - intros tok' c H. apply lookup_delete_Some in H as [_ H]. eauto.
  - intros tok' c x y H. apply lookup_delete_Some in H as [_ H]. eauto.
  - intros tok' Hle. destruct (H8 tok' Hle) as (Hnone & ? & ?).
    split; [|done]. apply lookup_delete_None. by right.
Qed.

(** A connection is made under the next token. *)
Lemma SeqOrder_create h m next :
  SeqOrder h m next → SeqOrder h (<[next := newConnection]> m) (S next).
Proof.
  intros [H1 H2 H3 H4 H5 H6 H7 H8]. constructor; try done.
  - intros tok c H. destruct (decide (next = tok)) as [<-|Hne].
    + destruct (H8 next (le_n _)) as (_ & -> & _). constructor.
    + rewrite lookup_insert_ne in H by done. eauto.
  - intros tok c H. destruct (decide (next = tok)) as [<-|Hne].
    + destruct (H8 next (le_n _)) as (_ & _ & ->). constructor.
    + rewrite lookup_insert_ne in H by done. eauto.
  - intros tok c H. destruct (decide (next = tok)) as [<-|Hne].
    + rewrite lookup_insert_eq in H. injection H as <-. constructor.
    + rewrite lookup_insert_ne in H by done. eauto.
  - intros tok c H. destruct (decide (next = tok)) as [<-|Hne].
    + rewrite lookup_insert_eq in H. injection H as <-. constructor.
    + rewrite lookup_insert_ne in H by done. eauto.
  - intros tok c x y H. destruct (decide (next = tok)) as [<-|Hne].
    + rewrite lookup_insert_eq in H. injection H as <-.
      intros _ Hy. by apply elem_of_nil in Hy.
    + rewrite lookup_insert_ne in H by done. eauto.
  - intros tok Hle. destruct (H8 tok) as (Hnone & ? & ?); [lia|].
    split; [|done]. rewrite lookup_insert_ne; [done|lia].
Qed.

(** A dispatch entry is appended to the outbound queue of a connection,
    under the number of its counter. *)
Lemma SeqOrder_enqueue h m next tok c e (cancelation : bool) :
  m !! tok = Some c →
  SeqOrder h m next →
  SeqOrder
    (h ++ [if cancelation then EnqueuedCancelation tok (sequenceCounter c) e
           else Enqueued tok (sequenceCounter c) e])
    (<[tok := {| outboundQueue :=
                   outboundQueue c
                   ++ [{| eventEntry := e; seq := sequenceCounter c;
                          deliveryTime := 0 |}];
                 waitQueue := waitQueue c;
                 sequenceCounter := S (sequenceCounter c) |}]> m)
    next.
Proof.
  intros Hc [H1 H2 H3 H4 H5 H6 H7 H8].
  set (o := if cancelation then EnqueuedCancelation tok (sequenceCounter c) e
            else Enqueued tok (sequenceCounter c) e).
  assert (∀ tok', omap (publishedSeq tok') (h ++ [o])
                  = omap (publishedSeq tok') h) as Hp.
  { intros tok'. rewrite omap_app.
    replace (omap (publishedSeq tok') [o]) with (@nil nat);
      [apply app_nil_r|]. unfold o. by destruct cancelation. }
  assert (omap (enqueuedSeq tok) (h ++ [o])
          = omap (enqueuedSeq tok) h ++ [sequenceCounter c]) as He.
  { rewrite omap_app. f_equal. unfold o.
    destruct cancelation; simpl; by rewrite decide_True. }
  assert (∀ tok', tok ≠ tok' → omap (enqueuedSeq tok') (h ++ [o])
                               = omap (enqueuedSeq tok') h) as He'.
  { intros tok' Hne. rewrite omap_app.
    replace (omap (enqueuedSeq tok') [o]) with (@nil nat);
      [apply app_nil_r|]. unfold o.
    destruct cancelation; simpl; by rewrite decide_False. }
  constructor.
  - intros tok'. destruct (decide (tok = tok')) as [<-|Hne].
    + rewrite He. apply StronglySorted_snoc; eauto.
    + rewrite He' by done. eauto.
  - intros tok'. rewrite Hp. eauto.
  - intros tok' c' H. destruct (decide (tok = tok')) as [<-|Hne].
    + rewrite lookup_insert_eq in H. injection H as <-. simpl. rewrite He.
      apply Forall_app. split.
      * apply Forall_lt_S. eauto.
      * constructor; [lia|constructor].
    + rewrite lookup_insert_ne in H by done. rewrite He' by done. eauto.
  - intros tok' c' H. rewrite Hp. destruct (decide (tok = tok')) as [<-|Hne].
    + rewrite lookup_insert_eq in H. injection H as <-. simpl.
      apply Forall_lt_S. eauto.
    + rewrite lookup_insert_ne in H by done. eauto.
  - intros tok' c' H. destruct (decide (tok = tok')) as [<-|Hne].
    + rewrite lookup_insert_eq in H. injection H as <-. simpl.
      rewrite fmap_app. apply StronglySorted_snoc; eauto.
    + rewrite lookup_insert_ne in H by done. eauto.
  - intros tok' c' H. destruct (decide (tok = tok')) as [<-|Hne].
    + rewrite lookup_insert_eq in H. injection H as <-. simpl.
      rewrite fmap_app. apply Forall_app. split.
      * apply Forall_lt_S. eauto.
      * constructor; [simpl; lia|constructor].
    + rewrite lookup_insert_ne in H by done. eauto.
  - intros tok' c' x y H. rewrite Hp. destruct (decide (tok = tok')) as [<-|Hne].
    + rewrite lookup_insert_eq in H. injection H as <-. simpl.
      rewrite fmap_app. intros Hx Hy.
      apply elem_of_app in Hy as [Hy|Hy]; [eauto|].
      apply list_elem_of_singleton in Hy as ->. simpl.
      pose proof (H4 _ _ Hc) as Hb. rewrite Forall_forall in Hb.
      by apply Hb.
    + rewrite lookup_insert_ne in H by done. eauto.
  - intros tok' Hle. destruct (H8 tok' Hle) as (Hnone & Hen & Hpn).
    assert (tok ≠ tok') as Hne by (intros <-; by rewrite Hc in Hnone).
    rewrite lookup_insert_ne, He', Hp by done. done.
Qed.

Lemma omap_publishedSeq_fmap tok (l : list DispatchEntry) :
  omap (publishedSeq tok)
    ((λ d, Published tok (seq d) (eventEntry d)) <$> l)
  = seq <$> l.
Proof.
  induction l as [|d l IH]; [done|].
  rewrite !fmap_cons, omap_cons_eq. simpl.
  rewrite decide_True by done. by f_equal.
Qed.

(** Entries of the outbound queue of a connection are written to its
    channel, oldest first. *)
Lemma SeqOrder_publish h m next tok c c' n :
  m !! tok = Some c →
  outboundQueue c' = drop n (outboundQueue c) →
  sequenceCounter c' = sequenceCounter c →
  SeqOrder h m next →
  SeqOrder
    (h ++ ((λ d, Published tok (seq d) (eventEntry d))
             <$> take n (outboundQueue c)))
    (<[tok := c']> m) next.
Proof.
  intros Hc Hout Hcnt [H1 H2 H3 H4 H5 H6 H7 H8].
  set (os := (λ d, Published tok (seq d) (eventEntry d))
               <$> take n (outboundQueue c)).
  assert (∀ tok', omap (enqueuedSeq tok') (h ++ os)
                  = omap (enqueuedSeq tok') h) as He.
  { intros tok'. rewrite omap_app. unfold os.
    rewrite omap_fmap_None by done. apply app_nil_r. }
  assert (omap (publishedSeq tok) (h ++ os)
          = omap (publishedSeq tok) h ++ (seq <$> take n (outboundQueue c)))
    as Hp.
  { rewrite omap_app. f_equal. apply omap_publishedSeq_fmap. }
  assert (∀ tok', tok ≠ tok' → omap (publishedSeq tok') (h ++ os)
                               = omap (publishedSeq tok') h) as Hp'.
  { intros tok' Hne. rewrite omap_app. unfold os.
    rewrite omap_fmap_None; [apply app_nil_r|].
    intros d. simpl. by rewrite decide_False. }
  pose proof (H5 _ _ Hc) as Hsorted.
  rewrite <- (take_drop n (outboundQueue c)), fmap_app in Hsorted.
  pose proof (H6 _ _ Hc) as Hbound.
  rewrite <- (take_drop n (outboundQueue c)), fmap_app in Hbound.
  apply Forall_app in Hbound as [Hbt Hbd].
  constructor.
  - intros tok'. rewrite He. eauto.
  - intros tok'. destruct (decide (tok = tok')) as [<-|Hne].
    + rewrite Hp. apply StronglySorted_app_2.
      * intros x y Hx Hy. apply (H7 tok c x y Hc Hx).
        rewrite <- (take_drop n (outboundQueue c)), fmap_app.
        apply elem_of_app. by left.
      * eauto.
      * by apply StronglySorted_app_1_l in Hsorted.
    + rewrite Hp' by done. eauto.
  - intros tok' c'' H. rewrite He. destruct (decide (tok = tok')) as [<-|Hne].
    + rewrite lookup_insert_eq in H. injection H as <-. rewrite Hcnt. eauto.
    + rewrite lookup_insert_ne in H by done. eauto.
  - intros tok' c'' H. destruct (decide (tok = tok')) as [<-|Hne].
    + rewrite lookup_insert_eq in H. injection H as <-. rewrite Hcnt, Hp.
      apply Forall_app. split; eauto.
    + rewrite lookup_insert_ne in H by done. rewrite Hp' by done. eauto.
  - intros tok' c'' H. destruct (decide (tok = tok')) as [<-|Hne].
    + rewrite lookup_insert_eq in H. injection H as <-. rewrite Hout.
      by apply StronglySorted_app_1_r in Hsorted.
    + rewrite lookup_insert_ne in H by done. eauto.
  - intros tok' c'' H. destruct (decide (tok = tok')) as [<-|Hne].
    + rewrite lookup_insert_eq in H. injection H as <-. by rewrite Hout, Hcnt.
    + rewrite lookup_insert_ne in H by done. eauto.
  - intros tok' c'' x y H. destruct (decide (tok = tok')) as [<-|Hne].
    + rewrite lookup_insert_eq in H. injection H as <-. rewrite Hout, Hp.
      intros Hx Hy. apply elem_of_app in Hx as [Hx|Hx].
      * apply (H7 tok c x y Hc Hx).
        rewrite <- (take_drop n (outboundQueue c)), fmap_app.
        apply elem_of_app. by right.
      * by eapply (StronglySorted_app_1_elem_of _ _ _ _ _ Hsorted).
    + rewrite lookup_insert_ne in H by done. rewrite Hp' by done. eauto.
  - intros tok' Hle. destruct (H8 tok' Hle) as (Hnone & Hen & Hpn).
    assert (tok ≠ tok') as Hne by (intros <-; by rewrite Hc in Hnone).
    rewrite lookup_insert_ne, He, Hp' by done. done.
Qed.

(** An operation that leaves the connections alone and adds only
    observations that concern none keeps the sequence numbers in order. *)
Lemma sequenced_frame st st' os :
  history st' = history st ++ os → Forall unsequenced os →
  mConnectionsByToken st' = mConnectionsByToken st →
  nextConnectionToken st' = nextConnectionToken st →
  sequenced st → sequenced st'.
Proof.
  intros Hh Hos Hm Hn HS. unfold sequenced. rewrite Hh, Hm, Hn.
  by apply SeqOrder_unsequenced.
Qed.

Lemma sequenced_initial t enabled frozen :
  sequenced (initialDispatcher t enabled frozen).
Proof. apply SeqOrder_initial. Qed.

Lemma sequenced_postCommandLocked c st :
  sequenced st → sequenced (postCommandLocked c st).
Proof.
  apply (sequenced_frame st _ []); try done. simpl. by rewrite app_nil_r.
Qed.

Lemma sequenced_runCommandsLockedInterruptable st :
  sequenced st → sequenced (runCommandsLockedInterruptable st).
Proof.
  apply (sequenced_frame st _ (PolicyCall <$> mCommandQueue st)); try done.
  apply Forall_fmap, Forall_true. done.
Qed.

Lemma sequenced_set_mLastDropReason r st :
  sequenced st → sequenced (set_mLastDropReason r st).
Proof.
  apply (sequenced_frame st _ []); try done. simpl. by rewrite app_nil_r.
Qed.

Lemma sequenced_set_mFocusResolver fr st :
  sequenced st → sequenced (set_mFocusResolver fr st).
Proof.
  apply (sequenced_frame st _ []); try done. simpl. by rewrite app_nil_r.
Qed.

Lemma sequenced_set_mWindowHandlesByDisplay w st :
  sequenced st → sequenced (set_mWindowHandlesByDisplay w st).
Proof.
  apply (sequenced_frame st _ []); try done. simpl. by rewrite app_nil_r.
Qed.

Lemma sequenced_setInputDispatchMode enabled frozen st :
  sequenced st → sequenced (setInputDispatchMode enabled frozen st).
Proof.
  apply (sequenced_frame st _ []); try done. simpl. by rewrite app_nil_r.
Qed.

Lemma sequenced_dropInboundEventLocked e r st :
  sequenced st → sequenced (dropInboundEventLocked e r st).
Proof.
  apply (sequenced_frame st _ [Dropped e r]); try done.
  by repeat constructor.
Qed.

Lemma sequenced_releasePendingEventLocked st :
  sequenced st → sequenced (releasePendingEventLocked st).
Proof.
  apply (sequenced_frame st _ []); try done. simpl. by rewrite app_nil_r.
Qed.

Lemma sequenced_enqueueInboundEventLocked args st :
  sequenced st → sequenced (enqueueInboundEventLocked args st).
Proof.
  apply (sequenced_frame st _
           [Arrived (withSequenceId (mIdGenerator st) args)]); try done.
  by repeat constructor.
Qed.

Lemma sequenced_enqueueFocusEventLocked slot t d w g st :
  sequenced st → sequenced (enqueueFocusEventLocked slot t d w g st).
Proof.
  apply (sequenced_frame st _
           [Arrived (focusEntry (mIdGenerator st) t d w g)]); try done.
  by repeat constructor.
Qed.

Lemma sequenced_pruneInboundQueueLocked i st :
  sequenced st → sequenced (pruneInboundQueueLocked i st).
Proof.
  intros HS. unfold pruneInboundQueueLocked.
  destruct (mInboundQueue st !! i) as [e|]; [|done].
  by destruct (decide _).
Qed.

Lemma sequenced_fetchPendingEventLocked oracle st :
  sequenced st → sequenced (fetchPendingEventLocked oracle st).
Proof.
  intros HS. unfold fetchPendingEventLocked.
  destruct (mPendingEvent st); [done|].
  destruct (mInboundQueue st); [|done].
  destruct (keyRepeat oracle) as [args|]; [|done].
  revert HS.
  apply (sequenced_frame st _
           [Created (asKeyRepeat (withSequenceId (mIdGenerator st) args))]);
    try done.
  by repeat constructor.
Qed.

Lemma sequenced_createInputChannel st :
  sequenced st → sequenced (createInputChannel st).
Proof. apply SeqOrder_create. Qed.

Lemma sequenced_removeInputChannelLocked tok notify st :
  sequenced st → sequenced (removeInputChannelLocked tok notify st).
Proof.
  intros HS. unfold removeInputChannelLocked.
  destruct (mConnectionsByToken st !! tok); [|done].
  assert (sequenced (set_mConnectionsByToken
                       (delete tok (mConnectionsByToken st)) st)) as H
    by by apply SeqOrder_delete.
  destruct notify; [by apply sequenced_postCommandLocked|done].
Qed.

Lemma sequenced_startDispatchCycleLocked t ch tok st :
  sequenced st → sequenced (startDispatchCycleLocked t ch tok st).
Proof.
  intros HS. unfold startDispatchCycleLocked.
  destruct (mConnectionsByToken st !! tok) as [c|] eqn:Hc; [|done].
  destruct (ch tok) as [n|]; [|by apply sequenced_removeInputChannelLocked].
  by apply (SeqOrder_publish _ _ _ tok c).
Qed.

Lemma sequenced_enqueueDispatchEntryLocked tok e b st :
  sequenced st → sequenced (enqueueDispatchEntryLocked tok e b st).
Proof.
  intros HS. unfold enqueueDispatchEntryLocked.
  destruct (mConnectionsByToken st !! tok) as [c|] eqn:Hc; [|done].
  by apply (SeqOrder_enqueue _ _ _ tok c e b).
Qed.

Lemma sequenced_enqueueDispatchEntriesLocked t ch tok e st :
  sequenced st → sequenced (enqueueDispatchEntriesLocked t ch tok e st).
Proof.
  intros HS. unfold enqueueDispatchEntriesLocked.
  destruct (mConnectionsByToken st !! tok) as [c|]; [|done].
  pose proof (sequenced_enqueueDispatchEntryLocked tok e false st HS) as H.
  destruct (outboundQueue c), (waitQueue c);
    try apply sequenced_startDispatchCycleLocked; done.
Qed.

Lemma sequenced_dispatchEventLocked t ch e targets st :
  sequenced st → sequenced (dispatchEventLocked t ch e targets st).
Proof.
  unfold dispatchEventLocked. revert st.
  induction targets as [|tok targets IH]; intros st HS; [done|].
  simpl. by apply IH, sequenced_enqueueDispatchEntriesLocked.
Qed.

Lemma sequenced_finishDispatchCycleLocked t ch tok sq st :
  sequenced st → sequenced (finishDispatchCycleLocked t ch tok sq st).
Proof.
  intros HS. unfold finishDispatchCycleLocked.
  destruct (mConnectionsByToken st !! tok) as [c|] eqn:Hc; [|done].
  destruct (existsb _ _); [|done].
  match goal with
  | |- context [set_mConnectionsByToken ?m st] =>
      assert (sequenced (set_mConnectionsByToken m st)) as H
        by by apply (SeqOrder_wait _ _ _ tok c)
  end.
  destruct (outboundQueue c); [done|].
  by apply sequenced_startDispatchCycleLocked.
Qed.

Lemma sequenced_synthesizeCancelation t ch tok args st :
  sequenced st →
  sequenced (synthesizeCancelationEventsForConnectionLocked t ch tok args st).
Proof.
  intros HS. unfold synthesizeCancelationEventsForConnectionLocked.
  destruct (mConnectionsByToken st !! tok) as [c|]; [|done].
  apply sequenced_startDispatchCycleLocked,
    sequenced_enqueueDispatchEntryLocked.
  revert HS.
  apply (sequenced_frame st _
           [Created (asCancelation (withSequenceId (mIdGenerator st) args))]);
    try done.
  by repeat constructor.
Qed.

Lemma sequenced_onFocusChangedLocked slot t ch st :
  sequenced st → sequenced (onFocusChangedLocked slot t ch st).
Proof.
  intros HS. unfold onFocusChangedLocked, sendFocusChangedCommandLocked.
  apply sequenced_postCommandLocked.
  destruct (oldFocus ch), (newFocus ch);
    repeat apply sequenced_enqueueFocusEventLocked; done.
Qed.

Lemma sequenced_setInputWindowsLocked slot t ws d st :
  sequenced st → sequenced (setInputWindowsLocked slot t ws d st).
Proof.
  intros HS. unfold setInputWindowsLocked.
  destruct (resolverSetInputWindows _ _ _) as [fr [ch|]].
  - by apply sequenced_onFocusChangedLocked, sequenced_set_mFocusResolver,
      sequenced_set_mWindowHandlesByDisplay.
  - by apply sequenced_set_mWindowHandlesByDisplay.
Qed.

Lemma sequenced_setInputWindows slot t w st :
  sequenced st → sequenced (setInputWindows slot t w st).
Proof.
  unfold setInputWindows, setAll. generalize (map_to_list w).
  intros l. revert st.
  induction l as [|[d ws] l IH]; intros st HS; [done|].
  simpl. by apply IH, sequenced_setInputWindowsLocked.
Qed.

Lemma sequenced_setFocusedWindow slot t d tok st :
  sequenced st → sequenced (setFocusedWindow slot t d tok st).
Proof.
  intros HS. unfold setFocusedWindow.
  destruct (resolverSetFocusedWindow _ _ _ _) as [fr [ch|]].
  - by apply sequenced_onFocusChangedLocked, sequenced_set_mFocusResolver.
  - by apply sequenced_set_mFocusResolver.
Qed.

Lemma sequenced_dispatchOnceInnerLocked t oracle st :
  sequenced st → sequenced (dispatchOnceInnerLocked t oracle st).
Proof.
  intros HS. unfold dispatchOnceInnerLocked.
  destruct (negb (mDispatchEnabled st) || mDispatchFrozen st); [done|].
  apply (sequenced_fetchPendingEventLocked oracle) in HS.
  destruct (mPendingEvent (fetchPendingEventLocked oracle st)) as [e|];
    [|done].
  destruct (decide _) as [_|_].
  - destruct (resolution oracle) as [| |targets]; [done| |].
    + by apply sequenced_set_mLastDropReason,
        sequenced_releasePendingEventLocked.
    + by apply sequenced_set_mLastDropReason,
        sequenced_releasePendingEventLocked, sequenced_dispatchEventLocked.
  - by apply sequenced_set_mLastDropReason,
      sequenced_releasePendingEventLocked, sequenced_dropInboundEventLocked.
Qed.

Lemma sequenced_step c st : sequenced st → sequenced (step c st).
Proof.
  intros HS. destruct c; simpl.
  - by apply sequenced_enqueueInboundEventLocked.
  - by apply sequenced_pruneInboundQueueLocked.
  - by apply sequenced_runCommandsLockedInterruptable,
      sequenced_dispatchOnceInnerLocked.
  - by apply sequenced_finishDispatchCycleLocked.
  - by apply sequenced_synthesizeCancelation.
  - by apply sequenced_createInputChannel.
  - by apply sequenced_removeInputChannelLocked.
  - by apply sequenced_setInputWindows.
  - by apply sequenced_setFocusedWindow.
  - by apply sequenced_setInputDispatchMode.
Qed.

Lemma reachable_sequenced st : reachable st → sequenced st.
Proof.
  induction 1 as [t enabled frozen|c st _ IH].
  - apply sequenced_initial.
  - by apply sequenced_step.
Qed.

(** Entries enqueued for a connection one after the other carry
    increasing sequence numbers, and are written to its channel in the
    order of their sequence numbers. *)
Lemma enqueue_order_seq st tok k1 k2 s1 s2 E1 E2 :
  sequenced st →
  history st !! k1 = Some (Enqueued tok s1 E1) →
  history st !! k2 = Some (Enqueued tok s2 E2) →
  (k1 < k2)%nat → (s1 < s2)%nat.
Proof.
  intros HS H1 H2 Hlt.
  eapply (omap_sorted_lookup (enqueuedSeq tok) Nat.lt (history st) k1 k2);
    [apply (so_enq_sorted _ _ _ HS)|done|done|done|..];
    simpl; by rewrite decide_True.
Qed.

Lemma publish_order_seq st tok j1 j2 s1 s2 E1 E2 :
  sequenced st →
  history st !! j1 = Some (Published tok s1 E1) →
  history st !! j2 = Some (Published tok s2 E2) →
  (s1 < s2)%nat → (j1 < j2)%nat.
Proof.
  intros HS H1 H2 Hlt.
  pose proof (so_pub_sorted _ _ _ HS tok) as Hsorted.
  assert (publishedSeq tok (Published tok s1 E1) = Some s1) as Hf1
    by (simpl; by rewrite decide_True).
  assert (publishedSeq tok (Published tok s2 E2) = Some s2) as Hf2
    by (simpl; by rewrite decide_True).
  destruct (Nat.lt_trichotomy j1 j2) as [?|[->|Hgt]]; [done| |].
  - rewrite H1 in H2. injection H2 as -> _. lia.
  - pose proof (omap_sorted_lookup (publishedSeq tok) Nat.lt (history st)
                  j2 j1 _ _ _ _ Hsorted H2 H1 Hgt Hf2 Hf1) as H.
    unfold Nat.lt in H. lia.
Qed.

(** **** Dispatch order *)

(** Entries that arrived in the inbound queue one after the other carry
    increasing sequence ids. *)
Lemma arrival_order_ids st i1 i2 E1 E2 :
  invariant true st →
  history st !! i1 = Some (Arrived E1) →
  history st !! i2 = Some (Arrived E2) →
  (i1 < i2)%nat → (sequenceId E1 < sequenceId E2)%nat.
Proof.
  intros [HQ _] H1 H2 Hlt.
  by eapply (omap_sorted_lookup allocId Nat.lt (history st) i1 i2);
    [apply (qo_alloc_sorted _ _ _ _ _ _ HQ)|..].
Qed.

(** An entry that arrived in the inbound queue is never enqueued as a
    synthesized cancellation. *)
Lemma arrived_not_cancelation st i k tok s E :
  invariant true st →
  history st !! i = Some (Arrived E) →
  history st !! k = Some (EnqueuedCancelation tok s E) → False.
Proof.
  intros [HQ HC] Hi Hk.
  apply list_elem_of_lookup_2, (co_cancel _ _ HC) in Hk.
  apply list_elem_of_lookup_1 in Hk as [m Hm].
  pose proof (qo_alloc_sorted _ _ _ _ _ _ HQ) as Hsorted.
  destruct (Nat.lt_trichotomy m i) as [Hlt|[->|Hlt]].
  - pose proof (omap_sorted_lookup allocId Nat.lt (history st) m i
                  _ _ _ _ Hsorted Hm Hi Hlt eq_refl eq_refl) as H.
    simpl in H. unfold Nat.lt in H. lia.
  - rewrite Hi in Hm. done.
  - pose proof (omap_sorted_lookup allocId Nat.lt (history st) i m
                  _ _ _ _ Hsorted Hi Hm Hlt eq_refl eq_refl) as H.
    simpl in H. unfold Nat.lt in H. lia.
Qed.

(** Device events are enqueued for the connections in the order of their
    sequence ids. *)
Lemma enqueue_order st k1 k2 tok1 tok2 s1 s2 E1 E2 :
  invariant true st →
  history st !! k1 = Some (Enqueued tok1 s1 E1) →
  history st !! k2 = Some (Enqueued tok2 s2 E2) →
  is_Some (deviceId E1) → is_Some (deviceId E2) →
  (sequenceId E1 < sequenceId E2)%nat → (k1 < k2)%nat.
Proof.
  intros [HQ _] H1 H2 [d1 Hd1] [d2 Hd2] Hlt.
  pose proof (qo_disp_sorted _ _ _ _ _ _ HQ) as Hsorted.
  destruct (Nat.lt_trichotomy k1 k2) as [?|[->|Hgt]]; [done| |].
  - rewrite H1 in H2. injection H2 as _ _ ->. lia.
  - assert (dispatchedId (Enqueued tok1 s1 E1) = Some (sequenceId E1)) as Hf1
      by (simpl; by rewrite Hd1).
    assert (dispatchedId (Enqueued tok2 s2 E2) = Some (sequenceId E2)) as Hf2
      by (simpl; by rewrite Hd2).
    pose proof (omap_sorted_lookup dispatchedId Nat.le (history st) k2 k1
                  _ _ _ _ Hsorted H2 H1 Hgt Hf2 Hf1) as H.
    unfold Nat.le in H. lia.
Qed.

(** C5.  In every reachable state of the dispatcher, let [E1] and [E2] be
    two events of the same device, [E1] having arrived in the inbound
    queue before [E2], and both targeted at the connection [tok]: [E1] was
    enqueued for sending to [tok], and [E2] was sent (written to the
    channel of [tok]).  Then [E1] was enqueued for sending to [tok] before
    [E2] was sent.  More precisely, dispatch to the connection is in
    arrival order: [E2] was itself enqueued for [tok] after [E1] and before
    it was sent, and if [E1] was sent too, it was sent before [E2].  The
    history positions [i1], [i2], [k1], [j2] say when each of these
    happened. *)
Theorem dispatch_order_fifo st tok dev E1 E2 i1 i2 k1 s1 j2 s2 :
  reachable st →
  history st !! i1 = Some (Arrived E1) →
  history st !! i2 = Some (Arrived E2) →
  (i1 < i2)%nat →
  deviceId E1 = Some dev → deviceId E2 = Some dev →
  history st !! k1 = Some (Enqueued tok s1 E1) →
  history st !! j2 = Some (Published tok s2 E2) →
  (k1 < j2)%nat
  ∧ (∃ k2, history st !! k2 = Some (Enqueued tok s2 E2)
           ∧ (k1 < k2)%nat ∧ (k2 < j2)%nat)
  ∧ (∀ j1, history st !! j1 = Some (Published tok s1 E1) → (j1 < j2)%nat).
Proof.
  intros Hreach Hi1 Hi2 Hlt Hd1 Hd2 Hk1 Hj2.
  pose proof (reachable_invariant st Hreach) as Hinv.
  pose proof (reachable_sequenced st Hreach) as Hseq.
  pose proof (arrival_order_ids st i1 i2 E1 E2 Hinv Hi1 Hi2 Hlt) as Hids.
  destruct (co_published _ _ (proj2 Hinv) j2 tok s2 E2 Hj2)
    as (k2 & Hk2lt & [Hk2|Hk2]).
  - assert (k1 < k2)%nat as Hk12.
    { eapply (enqueue_order st k1 k2); [done|done|done| | |done].
      - by rewrite Hd1.
      - by rewrite Hd2. }
    split; [lia|]. split; [by exists k2|].
    intros j1 Hj1. eapply (publish_order_seq st tok j1 j2); [done..|].
    by eapply (enqueue_order_seq st tok k1 k2).
  - destruct (arrived_not_cancelation st i2 k2 tok s2 E2 Hinv Hi2 Hk2).
Qed.

(** The history of the sample run. *)
Example sampleRun_history :
  history sampleRun
  = [Arrived (withSequenceId 0 (keyArgs 5 1));
     Arrived (withSequenceId 1 (keyArgs 6 1));
     Enqueued 0 0 (withSequenceId 0 (keyArgs 5 1));
     Published 0 0 (withSequenceId 0 (keyArgs 5 1));
     Enqueued 0 1 (withSequenceId 1 (keyArgs 6 1));
     Published 0 1 (withSequenceId 1 (keyArgs 6 1))].
Proof. vm_compute. reflexivity. Qed.

(** The order is kept for each connection, not across connections: in
    this run the second key is sent to connection 1 (position 4) before the
    first key is sent to connection 0 (position 7). *)
Example order_is_not_global :
  history twoConnectionRun !! 4%nat
  = Some (Published 1 0 (withSequenceId 1 (keyArgs 6 1)))
  ∧ history twoConnectionRun !! 7%nat
    = Some (Published 0 0 (withSequenceId 0 (keyArgs 5 1))).
Proof. split; vm_compute; reflexivity. Qed.

(** The theorem on the sample run: the first key was enqueued (position
    2) before the second was sent (position 5), and sent before it. *)
Lemma dispatch_order_fifo_witness :
  (2 < 5)%nat
  ∧ (∃ k2, history sampleRun !! k2
           = Some (Enqueued 0 1 (withSequenceId 1 (keyArgs 6 1)))
           ∧ (2 < k2)%nat ∧ (k2 < 5)%nat)
  ∧ (∀ j1, history sampleRun !! j1
           = Some (Published 0 0 (withSequenceId 0 (keyArgs 5 1))) →
           (j1 < 5)%nat).
Proof.
  apply (dispatch_order_fifo sampleRun 0%nat 1
           (withSequenceId 0 (keyArgs 5 1)) (withSequenceId 1 (keyArgs 6 1))
           0%nat 1%nat 2%nat 0%nat 5%nat 1%nat).
  - apply reachable_run, reachable_initial.
  - vm_compute. reflexivity.
  - vm_compute. reflexivity.
  - lia.
  - reflexivity.
  - reflexivity.
  - vm_compute. reflexivity.
  - vm_compute. reflexivity.
Defined.

End OrderTheorems.
